(** * parse_csv.py: the CSV grouping counter

    A shallow embedding of [parse_csv.py] and of the part of Python's
    [csv.DictReader] it runs on, followed by the properties of the
    printed report.

    The script:
<<
    import csv
    groups = {}
    with open('attached_assets/S&P_KY3P_Security_Assessment_4Groups_Final.csv', 'r') as f:
        reader = csv.DictReader(f)
        for row in reader:
            group = row['group']
            if group in groups:
                groups[group] += 1
            else:
                groups[group] = 1
    print('Groups found:')
    for group, count in sorted(groups.items()):
        print(f'- {group}: {count} fields')
>>
*)

From Equations Require Import Equations.
From Stdlib Require Import String Ascii DecimalString.
From Stdlib Require Import List ZArith NArith Lia Bool Sorted Permutation.
Import ListNotations.

Set Implicit Arguments.

(* ===================================================================== *)
(** * Python values                                                       *)
(* ===================================================================== *)

(** A Python [str] is a sequence of Unicode code points. *)
Definition str := list N.

(** String literals of the script. *)
Definition pystr (s : string) : str :=
  map N_of_ascii (list_ascii_of_string s).

Fixpoint str_eqb (a b : str) : bool :=
  match a, b with
  | [], [] => true
  | x :: a', y :: b' => N.eqb x y && str_eqb a' b'
  | _, _ => false
  end.

(** [a < b] on [str]: lexicographic on code points, a proper prefix first. *)
Fixpoint str_ltb (a b : str) : bool :=
  match a, b with
  | _, [] => false
  | [], _ :: _ => true
  | x :: a', y :: b' =>
      if N.ltb x y then true
      else if N.eqb x y then str_ltb a' b' else false
  end.

(** The hashable values the script meets as dictionary keys: [None] (the
    [restkey] of [DictReader], and the [restval] read back as a group) and
    strings. *)
Inductive key :=
| KNone
| KStr (s : str).

(** What a row dictionary of [DictReader] holds: a field (a string), the
    [restval] ([None]) of a short row, or the list of surplus fields of a long
    row. *)
Inductive value :=
| VNone
| VStr (s : str)
| VList (l : list str).

Definition key_eqb (a b : key) : bool :=
  match a, b with
  | KNone, KNone => true
  | KStr s, KStr t => str_eqb s t
  | _, _ => false
  end.

Inductive type_error :=
| NotIterable      (* zip(None, row) *)
| Unhashable       (* a list used as a dictionary key *)
| NotOrderable.    (* '<' between NoneType and str, or NoneType and NoneType *)

Inductive exn :=
| StopIteration
| OSError                      (* open() failed *)
| ReaderError (msg : str)      (* csv.Error or a decoding error, raised by csv.reader *)
| KeyError (k : key)
| TypeError (why : type_error)
| UnicodeEncodeError.          (* print() of text the terminal cannot encode *)

Inductive outcome (A : Type) :=
| Return (a : A)
| Raised (e : exn).
Arguments Raised {A} e.

(* ===================================================================== *)
(** * Dictionaries                                                        *)
(* ===================================================================== *)

(** A Python [dict]: keys are unique and kept in insertion order; assigning
    to a key that is present replaces its value in place. *)
Definition dict (A : Type) := list (key * A).

Fixpoint dict_get {A} (d : dict A) (k : key) : option A :=
  match d with
  | [] => None
  | (k', v) :: d' => if key_eqb k' k then Some v else dict_get d' k
  end.

Fixpoint dict_set {A} (d : dict A) (k : key) (v : A) : dict A :=
  match d with
  | [] => [(k, v)]
  | (k', v') :: d' =>
      if key_eqb k' k then (k', v) :: d' else (k', v') :: dict_set d' k v
  end.

(** [d[k]] *)
Definition getitem {A} (d : dict A) (k : key) : outcome A :=
  match dict_get d k with
  | Some v => Return v
  | None => Raised (KeyError k)
  end.

(** [hash(v)], as far as the dictionary needs it: the key [v] stands for. *)
Definition hashable (v : value) : outcome key :=
  match v with
  | VNone => Return KNone
  | VStr s => Return (KStr s)
  | VList _ => Raised (TypeError Unhashable)
  end.

(** [dict(zip(names, row))] *)
Fixpoint dict_zip (d : dict value) (names row : list str) : dict value :=
  match names, row with
  | n :: names', x :: row' => dict_zip (dict_set d (KStr n) (VStr x)) names' row'
  | _, _ => d
  end.

(** [for key in names: d[key] = v] *)
Fixpoint dict_fill (d : dict value) (names : list str) (v : value) : dict value :=
  match names with
  | [] => d
  | n :: names' => dict_fill (dict_set d (KStr n) v) names' v
  end.

(* ===================================================================== *)
(** * State and exceptions                                                *)
(* ===================================================================== *)

(** A computation on a state [S] that returns or raises; the state reached
    when an exception is raised is kept (what was printed stays printed). *)
Definition M (S A : Type) := S -> outcome A * S.

Definition ret {S A} (a : A) : M S A := fun s => (Return a, s).
Definition raise {S A} (e : exn) : M S A := fun s => (Raised e, s).
Definition bind {S A B} (m : M S A) (f : A -> M S B) : M S B :=
  fun s => match m s with
           | (Return a, s') => f a s'
           | (Raised e, s') => (Raised e, s')
           end.
Definition get {S} : M S S := fun s => (Return s, s).
Definition put {S} (s : S) : M S unit := fun _ => (Return tt, s).
Definition lift {S A} (o : outcome A) : M S A := fun s => (o, s).

(** [try: m  except StopIteration: pass] *)
Definition except_StopIteration {S} (m : M S unit) : M S unit :=
  fun s => match m s with
           | (Raised StopIteration, s') => (Return tt, s')
           | r => r
           end.

Declare Scope py_scope.
Delimit Scope py_scope with py.
Notation "x <- m ;; k" := (bind m (fun x => k))
  (at level 61, m at next level, right associativity) : py_scope.
Notation "m ;; k" := (bind m (fun _ => k))
  (at level 61, right associativity) : py_scope.
Local Open Scope py_scope.

(** The same on plain outcomes, for code that touches no state. *)
Definition obind {A B} (o : outcome A) (f : A -> outcome B) : outcome B :=
  match o with
  | Return a => f a
  | Raised e => Raised e
  end.

(* ===================================================================== *)
(** * csv.reader                                                          *)
(* ===================================================================== *)

(** What iterating [csv.reader(f)] over a file gives: records (lists of
    fields; a blank line is the record [[]]) until the file ends or the
    reader raises. The parsing of the text into records is the library's and
    is taken as given: a file is represented by its records. *)
Inductive records :=
| Stop
| Fail (msg : str)
| Yield (row : list str) (rest : records).

Fixpoint records_size (t : records) : nat :=
  match t with
  | Yield _ rest => S (records_size rest)
  | _ => 0
  end.

(** The reader object: what is left to read and its [line_num]. The real
    counter counts physical lines, at least one per record; the script's only
    use of it is the test against 0, for which one per record will do. *)
Record csv_reader := {
  rd_line_num : nat;
  pending : records
}.

(** [next(reader)] *)
Definition csv_next : M csv_reader (list str) :=
  fun r => match pending r with
           | Stop => (Raised StopIteration, r)
           | Fail msg => (Raised (ReaderError msg), r)
           | Yield row rest =>
               (Return row, {| rd_line_num := S (rd_line_num r); pending := rest |})
           end.

(** [while row == []: row = next(reader)] *)
Fixpoint while_blank (row : list str) (n : nat) (t : records) {struct t}
  : outcome (list str) * csv_reader :=
  match row with
  | _ :: _ => (Return row, {| rd_line_num := n; pending := t |})
  | [] =>
      match t with
      | Stop => (Raised StopIteration, {| rd_line_num := n; pending := t |})
      | Fail msg => (Raised (ReaderError msg), {| rd_line_num := n; pending := t |})
      | Yield row' rest => while_blank row' (S n) rest
      end
  end.

Definition skip_blank (row : list str) : M csv_reader (list str) :=
  fun r => while_blank row (rd_line_num r) (pending r).

(* ===================================================================== *)
(** * csv.DictReader                                                      *)
(* ===================================================================== *)

(** [DictReader(f)] with its defaults: no field names given, [restkey] and
    [restval] both [None]. *)
Record DictReader := {
  _fieldnames : option (list str);
  reader : csv_reader;
  line_num : nat
}.

Definition restkey : key := KNone.
Definition restval : value := VNone.

Definition DictReader_init (f : records) : DictReader :=
  {| _fieldnames := None;
     reader := {| rd_line_num := 0; pending := f |};
     line_num := 0 |}.

(** Run a computation of the inner reader inside the [DictReader]. *)
Definition on_reader {A} (m : M csv_reader A) : M DictReader A :=
  fun self => let (o, r') := m (reader self) in
              (o, {| _fieldnames := _fieldnames self;
                     reader := r';
                     line_num := line_num self |}).

Definition set_fieldnames (names : list str) : M DictReader unit :=
  fun self => (Return tt, {| _fieldnames := Some names;
                             reader := reader self;
                             line_num := line_num self |}).

(** [self.line_num = self.reader.line_num] *)
Definition sync_line_num : M DictReader unit :=
  fun self => (Return tt, {| _fieldnames := _fieldnames self;
                             reader := reader self;
                             line_num := rd_line_num (reader self) |}).

(** The [fieldnames] property:
<<
    if self._fieldnames is None:
        try:
            self._fieldnames = next(self.reader)
        except StopIteration:
            pass
    self.line_num = self.reader.line_num
    return self._fieldnames
>>
*)
Definition fieldnames : M DictReader (option (list str)) :=
  self <- get ;;
  match _fieldnames self with
  | None => except_StopIteration (row <- on_reader csv_next ;; set_fieldnames row)
  | Some _ => ret tt
  end ;;
  sync_line_num ;;
  self <- get ;;
  ret (_fieldnames self).

(** The row dictionary:
<<
    d = dict(zip(self.fieldnames, row))
    lf = len(self.fieldnames)
    lr = len(row)
    if lf < lr:
        d[self.restkey] = row[lf:]
    elif lf > lr:
        for key in self.fieldnames[lr:]:
            d[key] = self.restval
    return d
>>
*)
Definition row_dict (names row : list str) : dict value :=
  let d := dict_zip [] names row in
  let lf := length names in
  let lr := length row in
  if lf <? lr then dict_set d restkey (VList (skipn lf row))
  else if lr <? lf then dict_fill d (skipn lr names) restval
  else d.

(** [__next__]:
<<
    if self.line_num == 0:
        self.fieldnames
    row = next(self.reader)
    self.line_num = self.reader.line_num
    while row == []:
        row = next(self.reader)
    d = ...
>>
*)
Definition DictReader_next : M DictReader (dict value) :=
  self <- get ;;
  (if line_num self =? 0 then fieldnames ;; ret tt else ret tt) ;;
  row <- on_reader csv_next ;;
  sync_line_num ;;
  row <- on_reader (skip_blank row) ;;
  names <- fieldnames ;;
  match names with
  | None => raise (TypeError NotIterable)
  | Some names => ret (row_dict names row)
  end.

(* ===================================================================== *)
(** * The script                                                          *)
(* ===================================================================== *)

(** What a run sees and changes: the files it can open (by path; [None] is
    a path that is missing or unreadable), the code points the encoding of
    the terminal has, and what has been printed. *)
Record world := {
  files : str -> option records;
  encodes : N -> bool;
  stdout : list str
}.

(** [open(path, 'r')] *)
Definition open (path : str) : M world records :=
  fun w => match files w path with
           | Some f => (Return f, w)
           | None => (Raised OSError, w)
           end.

(** The terminal can take a line when it can encode each of its code
    points. *)
Definition encodable (w : world) (line : str) : bool :=
  forallb (encodes w) line.

(** [print(line)]: the line is encoded as a whole and written, or nothing of
    it is written and [UnicodeEncodeError] is raised; what was printed before
    stays. *)
Definition print (line : str) : M world unit :=
  fun w => if encodable w line
           then (Return tt, {| files := files w;
                               encodes := encodes w;
                               stdout := stdout w ++ [line] |})
           else (Raised UnicodeEncodeError, w).

Definition path : str :=
  pystr "attached_assets/S&P_KY3P_Security_Assessment_4Groups_Final.csv".

(** [str(n)] of an [int] *)
Definition str_of_int (n : Z) : str :=
  pystr (NilZero.string_of_int (Z.to_int n)).

(** [format(k)] of a key: [None] prints as its name, a string as itself. *)
Definition str_of_key (k : key) : str :=
  match k with
  | KNone => pystr "None"
  | KStr s => s
  end.

(** [f'- {group}: {count} fields'] *)
Definition group_line (item : key * Z) : str :=
  pystr "- " ++ str_of_key (fst item) ++ pystr ": "
    ++ str_of_int (snd item) ++ pystr " fields".

(** The body of the loop:
<<
    group = row['group']
    if group in groups:
        groups[group] += 1
    else:
        groups[group] = 1
>>
*)
Definition count_row (row : dict value) (groups : dict Z) : outcome (dict Z) :=
  obind (getitem row (KStr (pystr "group"))) (fun group =>
  obind (hashable group) (fun k =>
  match dict_get groups k with
  | Some _ => obind (getitem groups k) (fun n => Return (dict_set groups k (n + 1)%Z))
  | None => Return (dict_set groups k 1%Z)
  end)).

Definition remaining (self : DictReader) : nat :=
  records_size (pending (reader self)).

(** ** Reading never gives records back

    Every method of the reader leaves at most as many records pending as it
    found, and [__next__] consumes at least one when it returns a row: this
    is what makes the [for] loop below a definition. *)

Definition shrinks {A} (m : M DictReader A) : Prop :=
  forall s o s', m s = (o, s') -> remaining s' <= remaining s.

Lemma bind_Return_inv {S A B} (m : M S A) (f : A -> M S B) s b s' :
  bind m f s = (Return b, s') ->
  exists a s1, m s = (Return a, s1) /\ f a s1 = (Return b, s').
Proof.
  unfold bind. destruct (m s) as [[a | e] s1]; intro H; [| discriminate].
  exists a, s1. split; [reflexivity | exact H].
Qed.

Lemma shrinks_bind {A B} (m : M DictReader A) (f : A -> M DictReader B) :
  shrinks m -> (forall a, shrinks (f a)) -> shrinks (bind m f).
Proof.
  intros Hm Hf s o s'. unfold bind.
  destruct (m s) as [[a | e] s1] eqn:E; intro H.
  - apply Hm in E. apply Hf in H. lia.
  - injection H as _ <-. apply Hm in E. exact E.
Qed.

Lemma shrinks_ret {A} (a : A) : shrinks (ret a).
Proof. intros s o s' [= _ <-]. lia. Qed.

Lemma shrinks_raise {A} e : shrinks (@raise _ A e).
Proof. intros s o s' [= _ <-]. lia. Qed.

Lemma shrinks_get : shrinks get.
Proof. intros s o s' [= _ <-]. lia. Qed.

Lemma shrinks_set_fieldnames names : shrinks (set_fieldnames names).
Proof. intros s o s' [= _ <-]. unfold remaining. simpl. lia. Qed.

Lemma shrinks_sync_line_num : shrinks sync_line_num.
Proof. intros s o s' [= _ <-]. unfold remaining. simpl. lia. Qed.

Lemma shrinks_except {m : M DictReader unit} :
  shrinks m -> shrinks (except_StopIteration m).
Proof.
  intros Hm s o s'. unfold except_StopIteration.
  destruct (m s) as [[a | e] s1] eqn:E; [| destruct e];
    intros [= _ <-]; apply Hm in E; exact E.
Qed.

Lemma csv_next_remaining r o r' :
  csv_next r = (o, r') ->
  records_size (pending r') <= records_size (pending r) /\
  (forall row, o = Return row -> records_size (pending r') < records_size (pending r)).
Proof.
  unfold csv_next. destruct (pending r) as [| msg | x rest] eqn:E;
    intros [= <- <-]; simpl; rewrite ?E; simpl;
    (split; [lia | intros row [=]; lia]).
Qed.

Lemma shrinks_csv_next : shrinks (on_reader csv_next).
Proof.
  intros s o s'. unfold on_reader.
  destruct (csv_next (reader s)) as [o1 r'] eqn:E. intros [= _ <-].
  apply csv_next_remaining in E. unfold remaining. simpl. lia.
Qed.

Lemma while_blank_remaining row n t o r' :
  while_blank row n t = (o, r') ->
  records_size (pending r') <= records_size t.
Proof.
  revert row n. induction t as [| msg | x rest IH]; intros row n H;
    destruct row; simpl in H;
    try (injection H as _ <-; simpl; lia).
  apply IH in H. simpl. lia.
Qed.

Lemma shrinks_skip_blank row : shrinks (on_reader (skip_blank row)).
Proof.
  intros s o s'. unfold on_reader, skip_blank.
  destruct (while_blank row _ _) as [o1 r'] eqn:E. intros [= _ <-].
  apply while_blank_remaining in E. unfold remaining. simpl. exact E.
Qed.

Lemma shrinks_fieldnames : shrinks fieldnames.
Proof.
  unfold fieldnames.
  apply shrinks_bind; [apply shrinks_get | intro self].
  apply shrinks_bind; [| intros _].
  - destruct (_fieldnames self).
    + apply shrinks_ret.
    + apply shrinks_except, shrinks_bind;
        [apply shrinks_csv_next | apply shrinks_set_fieldnames].
  - apply shrinks_bind; [apply shrinks_sync_line_num | intros _].
    apply shrinks_bind; [apply shrinks_get | intro; apply shrinks_ret].
Qed.

Lemma DictReader_next_remaining self row self' :
  DictReader_next self = (Return row, self') ->
  remaining self' < remaining self.
Proof.
  unfold DictReader_next. intro H.
  apply bind_Return_inv in H as (s0 & s1 & [= <- <-] & H).
  apply bind_Return_inv in H as (u & s2 & H1 & H).
  assert (remaining s2 <= remaining self) as L1.
  { revert H1. destruct (line_num self =? 0).
    - apply shrinks_bind; [apply shrinks_fieldnames | intro; apply shrinks_ret].
    - apply shrinks_ret. }
  apply bind_Return_inv in H as (r & s3 & H2 & H).
  assert (remaining s3 < remaining s2) as L2.
  { revert H2. unfold on_reader.
    destruct (csv_next (reader s2)) as [o1 r'] eqn:E. intros [= -> <-].
    apply csv_next_remaining in E as [_ E]. unfold remaining. simpl.
    apply (E r). reflexivity. }
  assert (remaining self' <= remaining s3) as L3.
  { revert H. apply shrinks_bind; [apply shrinks_sync_line_num | intros _].
    apply shrinks_bind; [apply shrinks_skip_blank | intros row'].
    apply shrinks_bind; [apply shrinks_fieldnames | intros [names |]];
      [apply shrinks_ret | apply shrinks_raise]. }
  lia.
Qed.

(** A value together with the equation that it is what was computed. *)
Definition inspect {A : Type} (x : A) : {y : A | x = y} := exist _ x eq_refl.

(** The loop [for row in reader: ...], threading [groups]: [__next__] until
    [StopIteration]; any other exception, of the reader or of the body, ends
    the loop and is passed on. *)
Equations? for_rows (self : DictReader) (groups : dict Z) : outcome (dict Z)
  by wf (remaining self) lt :=
  for_rows self groups with inspect (DictReader_next self) := {
    | exist _ (Return row, self') _ with count_row row groups := {
        | Return groups' => for_rows self' groups'
        | Raised e => Raised e };
    | exist _ (Raised StopIteration, _) _ => Return groups;
    | exist _ (Raised e, _) _ => Raised e }.
Proof.
  eapply DictReader_next_remaining; eassumption.
Qed.

(** ** Sorting the items

    [a < b] on keys: strings compare lexicographically; [None] is not ordered
    against anything. *)
Definition key_lt (a b : key) : outcome bool :=
  match a, b with
  | KStr s, KStr t => Return (str_ltb s t)
  | _, _ => Raised (TypeError NotOrderable)
  end.

(** [x < y] on [(key, count)] tuples: the first position where the two differ
    (by [==]) decides; the keys are only compared by [<] when they differ. *)
Definition item_lt (x y : key * Z) : outcome bool :=
  if key_eqb (fst x) (fst y) then Return (snd x <? snd y)%Z
  else key_lt (fst x) (fst y).

(** [sorted(items)]: a stable sort that uses only [<] and passes on what a
    comparison raises. Among items with distinct keys every sort by [<]
    returns the same list, and every sort of two or more items compares each
    item with another one; the insertion sort stands for the library's. *)
Fixpoint insert (x : key * Z) (l : list (key * Z)) : outcome (list (key * Z)) :=
  match l with
  | [] => Return [x]
  | y :: l' =>
      obind (item_lt y x) (fun b =>
      if b then obind (insert x l') (fun l'' => Return (y :: l''))
      else Return (x :: l))
  end.

Fixpoint sorted (l : list (key * Z)) : outcome (list (key * Z)) :=
  match l with
  | [] => Return []
  | x :: l' => obind (sorted l') (insert x)
  end.

(** [for x in l: f(x)] *)
Fixpoint for_each {S A} (l : list A) (f : A -> M S unit) : M S unit :=
  match l with
  | [] => ret tt
  | x :: l' => f x ;; for_each l' f
  end.

(** ** The whole script *)

(** [groups.items()]: the items of the dictionary, in the order in which it
    hands them out. From Python 3.7 on this is the order of insertion; before
    that the language left the order open, and it could change with the hash
    seed of the process. *)
Definition items_order := dict Z -> list (key * Z).

Definition insertion_order : items_order := fun groups => groups.

(** The script, for a dictionary that hands out its items in the order
    [items]. *)
Definition script (items : items_order) : M world unit :=
  let groups : dict Z := [] in
  groups <- (f <- open path ;;
             let reader := DictReader_init f in
             lift (for_rows reader groups)) ;;
  print (pystr "Groups found:") ;;
  items <- lift (sorted (items groups)) ;;
  for_each items (fun item => print (group_line item)).

Definition main : M world unit := script insertion_order.

(** A run on a given file (or on none, [None]) from an empty terminal that
    can encode any text: the lines printed and the exception the run ended
    with, if any. *)
Definition world_of (file : option records) : world :=
  {| files := fun p => if str_eqb p path then file else None;
     encodes := fun _ => true;
     stdout := [] |}.

Definition run (file : option records) : list str * option exn :=
  match main (world_of file) with
  | (Return _, w) => (stdout w, None)
  | (Raised e, w) => (stdout w, Some e)
  end.

(* ===================================================================== *)
(** * Strings and keys                                                    *)
(* ===================================================================== *)

Lemma str_eqb_eq a b : str_eqb a b = true <-> a = b.
Proof.
  revert b. induction a as [| x a IH]; intros [| y b]; simpl;
    try (split; [discriminate | congruence]); [tauto |].
  rewrite andb_true_iff, N.eqb_eq, IH. split.
  - intros [-> ->]. reflexivity.
  - intros [= -> ->]. tauto.
Qed.

Lemma key_eqb_eq a b : key_eqb a b = true <-> a = b.
Proof.
  destruct a as [| s], b as [| t]; simpl;
    try (split; [discriminate | congruence]); [tauto |].
  rewrite str_eqb_eq. split; congruence.
Qed.

Lemma key_eqb_refl a : key_eqb a a = true.
Proof. apply key_eqb_eq. reflexivity. Qed.

Lemma key_eqb_neq a b : key_eqb a b = false <-> a <> b.
Proof.
  rewrite <- key_eqb_eq. destruct (key_eqb a b); split; congruence.
Qed.

Lemma key_eq_dec (a b : key) : {a = b} + {a <> b}.
Proof.
  destruct (key_eqb a b) eqn:E.
  - left. apply key_eqb_eq. exact E.
  - right. apply key_eqb_neq. exact E.
Defined.

Lemma str_ltb_irrefl a : str_ltb a a = false.
Proof.
  induction a as [| x a IH]; simpl; [reflexivity |].
  rewrite N.ltb_irrefl, N.eqb_refl. exact IH.
Qed.

Lemma str_ltb_trans a b c :
  str_ltb a b = true -> str_ltb b c = true -> str_ltb a c = true.
Proof.
  revert b c. induction a as [| x a IH]; intros [| y b] [| z c]; simpl;
    try discriminate; try reflexivity.
  destruct (N.ltb_spec x y), (N.ltb_spec y z), (N.ltb_spec x z),
    (N.eqb_spec x y), (N.eqb_spec y z), (N.eqb_spec x z);
    try discriminate; try reflexivity; try lia.
  apply IH.
Qed.

Lemma str_ltb_total a b :
  a <> b -> str_ltb a b = false -> str_ltb b a = true.
Proof.
  revert b. induction a as [| x a IH]; intros [| y b]; simpl;
    try discriminate; try reflexivity; [congruence |].
  destruct (N.ltb_spec x y), (N.ltb_spec y x), (N.eqb_spec x y), (N.eqb_spec y x);
    try discriminate; try reflexivity; try lia.
  intros Hne. apply IH. congruence.
Qed.

(** The order of the report: by group name, ascending. [None] has no place
    in it. *)
Definition key_before (a b : key) : Prop :=
  match a, b with
  | KStr s, KStr t => str_ltb s t = true
  | _, _ => False
  end.

Lemma key_before_trans a b c : key_before a b -> key_before b c -> key_before a c.
Proof.
  destruct a, b, c; simpl; try tauto. apply str_ltb_trans.
Qed.

Lemma key_before_irrefl a : ~ key_before a a.
Proof.
  destruct a; simpl; [tauto |]. rewrite str_ltb_irrefl. discriminate.
Qed.

(* ===================================================================== *)
(** * Dictionaries: lookup, update, keys                                  *)
(* ===================================================================== *)

Definition keys {A} (d : dict A) : list key := map fst d.

Lemma dict_get_set_same {A} (d : dict A) k v : dict_get (dict_set d k v) k = Some v.
Proof.
  induction d as [| [k' v'] d IH]; simpl.
  - rewrite key_eqb_refl. reflexivity.
  - destruct (key_eqb k' k) eqn:E; simpl; rewrite E; [reflexivity | exact IH].
Qed.

Lemma dict_get_set_other {A} (d : dict A) k k' v :
  k <> k' -> dict_get (dict_set d k v) k' = dict_get d k'.
Proof.
  intro Hne. induction d as [| [k0 v0] d IH]; simpl.
  - apply key_eqb_neq in Hne. rewrite Hne. reflexivity.
  - destruct (key_eqb k0 k) eqn:E; simpl.
    + apply key_eqb_eq in E. subst k0.
      apply key_eqb_neq in Hne. rewrite Hne. reflexivity.
    + rewrite IH. reflexivity.
Qed.

Lemma dict_get_None {A} (d : dict A) k : dict_get d k = None <-> ~ In k (keys d).
Proof.
  induction d as [| [k' v'] d IH]; simpl; [tauto |].
  destruct (key_eqb k' k) eqn:E.
  - apply key_eqb_eq in E. split; [discriminate | tauto].
  - apply key_eqb_neq in E. rewrite IH. tauto.
Qed.

Lemma dict_get_In {A} (d : dict A) k v : dict_get d k = Some v -> In (k, v) d.
Proof.
  induction d as [| [k' v'] d IH]; simpl; [discriminate |].
  destruct (key_eqb k' k) eqn:E.
  - apply key_eqb_eq in E. intros [= ->]. left. congruence.
  - intro H. right. apply IH. exact H.
Qed.

Lemma In_dict_get {A} (d : dict A) k v :
  NoDup (keys d) -> In (k, v) d -> dict_get d k = Some v.
Proof.
  induction d as [| [k' v'] d IH]; simpl; [tauto |].
  intros Hnd [[= -> ->] | Hin].
  - rewrite key_eqb_refl. reflexivity.
  - inversion Hnd as [| ? ? Hnotin Hnd']; subst.
    destruct (key_eqb k' k) eqn:E.
    + apply key_eqb_eq in E. subst k'. exfalso. apply Hnotin.
      apply (in_map fst) in Hin. exact Hin.
    + apply IH; assumption.
Qed.

Lemma keys_dict_set_present {A} (d : dict A) k v :
  In k (keys d) -> keys (dict_set d k v) = keys d.
Proof.
  induction d as [| [k' v'] d IH]; simpl; [tauto |].
  intros Hin. destruct (key_eqb k' k) eqn:E; simpl; [reflexivity |].
  f_equal. apply IH. destruct Hin as [-> | Hin]; [| exact Hin].
  rewrite key_eqb_refl in E. discriminate.
Qed.

Lemma keys_dict_set_absent {A} (d : dict A) k v :
  ~ In k (keys d) -> keys (dict_set d k v) = keys d ++ [k].
Proof.
  induction d as [| [k' v'] d IH]; simpl; [reflexivity |].
  intros Hnotin. destruct (key_eqb k' k) eqn:E; simpl.
  - apply key_eqb_eq in E. tauto.
  - f_equal. apply IH. tauto.
Qed.

Lemma NoDup_keys_dict_set {A} (d : dict A) k v :
  NoDup (keys d) -> NoDup (keys (dict_set d k v)).
Proof.
  intro Hnd. destruct (in_dec key_eq_dec k (keys d)) as [Hin | Hnotin].
  - rewrite keys_dict_set_present by exact Hin. exact Hnd.
  - rewrite keys_dict_set_absent by exact Hnotin.
    apply NoDup_app; [exact Hnd | repeat constructor; simpl; tauto |].
    intros a Hin [<- | []]. tauto.
Qed.

(* ===================================================================== *)
(** * The loop, record by record                                          *)
(* ===================================================================== *)

(** One turn of the [for] loop. *)
Lemma for_rows_eq self groups :
  for_rows self groups =
  match DictReader_next self with
  | (Return row, self') =>
      match count_row row groups with
      | Return groups' => for_rows self' groups'
      | Raised e => Raised e
      end
  | (Raised StopIteration, _) => Return groups
  | (Raised e, _) => Raised e
  end.
Proof.
  funelim (for_rows self groups);
    match goal with E : DictReader_next _ = _ |- _ => rewrite E end;
    try match goal with E : count_row _ _ = _ |- _ => rewrite E end;
    reflexivity.
Qed.

(** The reader once the header is in: the field names are set and
    [line_num] is past 0. *)
Definition steady (names : list str) (n : nat) (t : records) (ln : nat) : DictReader :=
  {| _fieldnames := Some names;
     reader := {| rd_line_num := n; pending := t |};
     line_num := ln |}.

Lemma while_blank_line_num row n t o r' :
  while_blank row n t = (o, r') -> n <= rd_line_num r'.
Proof.
  revert row n. induction t as [| msg | x rest IH]; intros row n H;
    destruct row; simpl in H; try (injection H as _ <-; simpl; lia).
  apply IH in H. lia.
Qed.

Lemma while_blank_cons x row n t :
  while_blank (x :: row) n t = (Return (x :: row), {| rd_line_num := n; pending := t |}).
Proof. destruct t; reflexivity. Qed.

Lemma DictReader_next_steady names n t ln :
  ln <> 0 ->
  DictReader_next (steady names n t ln) =
  match t with
  | Stop => (Raised StopIteration, steady names n t ln)
  | Fail msg => (Raised (ReaderError msg), steady names n t ln)
  | Yield row rest =>
      match while_blank row (S n) rest with
      | (Return row', r') =>
          (Return (row_dict names row'),
           steady names (rd_line_num r') (pending r') (rd_line_num r'))
      | (Raised e, r') =>
          (Raised e, steady names (rd_line_num r') (pending r') (S n))
      end
  end.
Proof.
  intro Hln. destruct ln as [| ln]; [congruence |].
  destruct t as [| msg | row rest]; try reflexivity.
  unfold DictReader_next, bind, get, on_reader, csv_next, skip_blank,
    sync_line_num, steady. simpl.
  destruct (while_blank row (S n) rest) as [[row' | e] [n' t']]; reflexivity.
Qed.

(** The first [__next__] reads the header. *)
Lemma DictReader_next_init t :
  DictReader_next (DictReader_init t) =
  match t with
  | Stop => (Raised StopIteration, DictReader_init t)
  | Fail msg => (Raised (ReaderError msg), DictReader_init t)
  | Yield names rest => DictReader_next (steady names 1 rest 1)
  end.
Proof.
  destruct t as [| msg | names rest]; reflexivity.
Qed.

(** The loop as a recursion on the records: blank records are passed over,
    every other one is made a row dictionary and counted. *)
Fixpoint tally_rows (names : list str) (t : records) (groups : dict Z)
  : outcome (dict Z) :=
  match t with
  | Stop => Return groups
  | Fail msg => Raised (ReaderError msg)
  | Yield [] rest => tally_rows names rest groups
  | Yield row rest =>
      obind (count_row (row_dict names row) groups) (tally_rows names rest)
  end.

Lemma for_rows_steady names t : forall n ln groups,
  ln <> 0 ->
  for_rows (steady names n t ln) groups = tally_rows names t groups.
Proof.
  induction t as [| msg | row rest IH]; intros n ln groups Hln;
    rewrite for_rows_eq, DictReader_next_steady by exact Hln;
    try reflexivity.
  destruct row as [| x row].
  - (* a blank record: the same turn as from [rest] *)
    simpl tally_rows. rewrite <- (IH (S n) (S n) groups) by lia.
    rewrite for_rows_eq, DictReader_next_steady by lia.
    destruct rest as [| msg | row' rest']; try reflexivity.
    simpl. destruct (while_blank row' (S (S n)) rest') as [[? | []] ?]; reflexivity.
  - rewrite while_blank_cons. simpl.
    destruct (count_row _ groups) as [groups' | e]; simpl; [| reflexivity].
    apply IH. lia.
Qed.

Lemma for_rows_init t groups :
  for_rows (DictReader_init t) groups =
  match t with
  | Stop => Return groups
  | Fail msg => Raised (ReaderError msg)
  | Yield names rest => tally_rows names rest groups
  end.
Proof.
  destruct t as [| msg | names rest].
  - rewrite for_rows_eq. reflexivity.
  - rewrite for_rows_eq. reflexivity.
  - rewrite <- (for_rows_steady names rest 1 groups (ln := 1)) by lia.
    rewrite for_rows_eq, DictReader_next_init.
    rewrite (for_rows_eq (steady names 1 rest 1)). reflexivity.
Qed.

(** [while_blank] is the source's loop: a blank record asks the reader for
    the next one, any other record ends the loop. *)
Lemma skip_blank_eq row r :
  skip_blank row r =
  match row with
  | [] => (row' <- csv_next ;; skip_blank row') r
  | _ :: _ => ret row r
  end.
Proof.
  destruct r as [n t]. unfold skip_blank, bind, csv_next, ret. simpl.
  destruct row as [| x row]; [| apply while_blank_cons].
  destruct t as [| msg | row' rest]; reflexivity.
Qed.

(* ===================================================================== *)
(** * The run, stage by stage                                             *)
(* ===================================================================== *)

(** The [with] block: the file is opened and read to its end into [groups]. *)
Definition read_groups (file : option records) : outcome (dict Z) :=
  match file with
  | None => Raised OSError
  | Some f => for_rows (DictReader_init f) []
  end.

Definition header_line : str := pystr "Groups found:".

Definition printed (w : world) (lines : list str) : world :=
  {| files := files w; encodes := encodes w; stdout := stdout w ++ lines |}.

(** Of lines printed one after the other, those that come out: the lines
    before the first one the terminal cannot encode. *)
Fixpoint lines_out (enc : N -> bool) (lines : list str) : list str :=
  match lines with
  | [] => []
  | line :: lines' =>
      if forallb enc line then line :: lines_out enc lines' else []
  end.

Definition all_encodable (enc : N -> bool) (lines : list str) : bool :=
  forallb (forallb enc) lines.

Lemma printed_nil w : printed w [] = w.
Proof. unfold printed. rewrite app_nil_r. destruct w; reflexivity. Qed.

Lemma printed_app w a b : printed (printed w a) b = printed w (a ++ b).
Proof. unfold printed. simpl. rewrite app_assoc. reflexivity. Qed.

Lemma for_each_print {A} (f : A -> str) (l : list A) w :
  for_each l (fun x => print (f x)) w =
  (if all_encodable (encodes w) (map f l) then Return tt
   else Raised UnicodeEncodeError,
   printed w (lines_out (encodes w) (map f l))).
Proof.
  revert w. induction l as [| x l IH]; intro w; simpl.
  - unfold ret. rewrite printed_nil. reflexivity.
  - unfold bind, print at 1, encodable.
    destruct (forallb (encodes w) (f x)); simpl.
    + rewrite IH. simpl. f_equal. unfold printed. simpl.
      rewrite <- app_assoc. reflexivity.
    + rewrite printed_nil. reflexivity.
Qed.

(** The script, stage by stage: the file is read, the header line is
    printed, the items are sorted, the group lines are printed. *)
Lemma script_eq items w :
  script items w =
  match read_groups (files w path) with
  | Raised e => (Raised e, w)
  | Return groups =>
      if encodable w header_line then
        match sorted (items groups) with
        | Raised e => (Raised e, printed w [header_line])
        | Return sorted_items =>
            (if all_encodable (encodes w) (map group_line sorted_items)
             then Return tt else Raised UnicodeEncodeError,
             printed w (header_line ::
                        lines_out (encodes w) (map group_line sorted_items)))
        end
      else (Raised UnicodeEncodeError, w)
  end.
Proof.
  unfold script, bind, open, lift, read_groups.
  destruct (files w path) as [f |]; [| reflexivity].
  destruct (for_rows (DictReader_init f) []) as [groups | e]; [| reflexivity].
  unfold print at 1. fold header_line.
  destruct (encodable w header_line); [| reflexivity].
  destruct (sorted (items groups)) as [sorted_items | e]; [| reflexivity].
  rewrite for_each_print. cbn [encodes]. f_equal.
  unfold printed. simpl. rewrite <- app_assoc. reflexivity.
Qed.

Lemma main_eq w :
  main w =
  match read_groups (files w path) with
  | Raised e => (Raised e, w)
  | Return groups =>
      if encodable w header_line then
        match sorted groups with
        | Raised e => (Raised e, printed w [header_line])
        | Return items =>
            (if all_encodable (encodes w) (map group_line items)
             then Return tt else Raised UnicodeEncodeError,
             printed w (header_line ::
                        lines_out (encodes w) (map group_line items)))
        end
      else (Raised UnicodeEncodeError, w)
  end.
Proof. apply script_eq. Qed.

Lemma forallb_true {A} (l : list A) : forallb (fun _ => true) l = true.
Proof. induction l; simpl; auto. Qed.

Lemma lines_out_all lines : lines_out (fun _ => true) lines = lines.
Proof.
  induction lines as [| line lines IH]; simpl; [reflexivity |].
  rewrite forallb_true, IH. reflexivity.
Qed.

Lemma all_encodable_all lines : all_encodable (fun _ => true) lines = true.
Proof.
  induction lines as [| line lines IH]; simpl; [reflexivity |].
  rewrite forallb_true. exact IH.
Qed.

Lemma run_eq file :
  run file =
  match read_groups file with
  | Raised e => ([], Some e)
  | Return groups =>
      match sorted groups with
      | Raised e => ([header_line], Some e)
      | Return items => (header_line :: map group_line items, None)
      end
  end.
Proof.
  unfold run. rewrite main_eq.
  replace (files (world_of file) path) with file
    by (unfold world_of; cbn [files];
        now rewrite (proj2 (str_eqb_eq path path) eq_refl)).
  destruct (read_groups file) as [groups | e]; [| reflexivity].
  unfold encodable. cbn [encodes world_of].
  rewrite forallb_true.
  destruct (sorted groups) as [items | e]; [| reflexivity].
  rewrite all_encodable_all, lines_out_all. reflexivity.
Qed.

(** On any terminal that can encode every text, a run is the run on its
    file, printed after what the terminal already shows; the files are left
    as they were. *)
Lemma main_run w :
  (forall c, encodes w c = true) ->
  main w =
  (match snd (run (files w path)) with
   | None => Return tt
   | Some e => Raised e
   end,
   printed w (fst (run (files w path)))).
Proof.
  intro Henc.
  assert (forall line, forallb (encodes w) line = true) as Hline
    by (intro line; apply forallb_forall; intros c _; apply Henc).
  assert (forall lines, all_encodable (encodes w) lines = true) as Hall
    by (intro lines; apply forallb_forall; intros line _; apply Hline).
  assert (forall lines, lines_out (encodes w) lines = lines) as Hout.
  { induction lines as [| line lines IH]; simpl; [reflexivity |].
    rewrite Hline, IH. reflexivity. }
  rewrite main_eq, run_eq. unfold encodable. rewrite Hline.
  destruct (read_groups (files w path)) as [groups | e]; cbn [fst snd];
    [| rewrite printed_nil; reflexivity].
  destruct (sorted groups) as [items | e]; cbn [fst snd]; [| reflexivity].
  rewrite Hall, Hout. reflexivity.
Qed.

(* ===================================================================== *)
(** * What a row dictionary holds under a column name                     *)
(* ===================================================================== *)

(** The position of the last column named [g]. *)
Fixpoint last_index (g : str) (names : list str) : option nat :=
  match names with
  | [] => None
  | n :: names' =>
      match last_index g names' with
      | Some i => Some (S i)
      | None => if str_eqb n g then Some 0 else None
      end
  end.

(** The field of [row] under the column [g]: the one at the last column of
    that name, [None] when the row is too short to have it, and no entry
    when no column has the name. *)
Definition field (names row : list str) (g : str) : option value :=
  match last_index g names with
  | None => None
  | Some i => Some (match nth_error row i with
                    | Some x => VStr x
                    | None => VNone
                    end)
  end.

Lemma last_index_None g names : last_index g names = None <-> ~ In g names.
Proof.
  induction names as [| n names IH]; simpl; [tauto |].
  destruct (last_index g names) as [i |].
  - split; [discriminate |]. intro H. exfalso.
    assert (~ In g names) as H' by tauto. apply IH in H'. discriminate.
  - destruct (str_eqb n g) eqn:E.
    + apply str_eqb_eq in E. split; [discriminate | tauto].
    + assert (n <> g) by (intro Heq; apply str_eqb_eq in Heq; congruence).
      assert (~ In g names) by (apply IH; reflexivity). tauto.
Qed.

Lemma last_index_lt g names i : last_index g names = Some i -> i < length names.
Proof.
  revert i. induction names as [| n names IH]; simpl; [discriminate |].
  intros i. destruct (last_index g names) as [j |].
  - intros [= <-]. specialize (IH j eq_refl). lia.
  - destruct (str_eqb n g); [intros [= <-]; lia | discriminate].
Qed.

Lemma last_index_app g a b :
  last_index g (a ++ b) =
  match last_index g b with
  | Some j => Some (length a + j)
  | None => last_index g a
  end.
Proof.
  induction a as [| n a IH]; simpl.
  - destruct (last_index g b); reflexivity.
  - rewrite IH. destruct (last_index g b); reflexivity.
Qed.

Lemma dict_get_zip g : forall names row d,
  dict_get (dict_zip d names row) (KStr g) =
  match last_index g (firstn (length row) names) with
  | Some i => option_map VStr (nth_error row i)
  | None => dict_get d (KStr g)
  end.
Proof.
  induction names as [| n names IH]; intros row d.
  - rewrite firstn_nil. reflexivity.
  - destruct row as [| x row]; [reflexivity |].
    simpl. rewrite IH.
    destruct (last_index g (firstn (length row) names)) as [i |]; [reflexivity |].
    destruct (str_eqb n g) eqn:E.
    + apply str_eqb_eq in E. subst n. apply dict_get_set_same.
    + apply dict_get_set_other. intros [= Heq].
      apply str_eqb_eq in Heq. congruence.
Qed.

Lemma dict_get_fill g v : forall names d,
  dict_get (dict_fill d names v) (KStr g) =
  match last_index g names with
  | Some _ => Some v
  | None => dict_get d (KStr g)
  end.
Proof.
  induction names as [| n names IH]; intro d; [reflexivity |].
  simpl. rewrite IH.
  destruct (last_index g names) as [i |]; [reflexivity |].
  destruct (str_eqb n g) eqn:E.
  - apply str_eqb_eq in E. subst n. apply dict_get_set_same.
  - apply dict_get_set_other. intros [= Heq].
    apply str_eqb_eq in Heq. congruence.
Qed.

(** [row[g]] of a [DictReader] row is the field under the column [g]. *)
Lemma dict_get_row_dict names row g :
  dict_get (row_dict names row) (KStr g) = field names row g.
Proof.
  unfold row_dict, field.
  destruct (Nat.ltb_spec (length names) (length row)) as [Hlong | Hle].
  - rewrite dict_get_set_other by discriminate.
    rewrite dict_get_zip, firstn_all2 by lia. simpl.
    destruct (last_index g names) as [i |] eqn:Ei; [| reflexivity].
    apply last_index_lt in Ei.
    destruct (nth_error row i) eqn:En; [reflexivity |].
    apply nth_error_None in En. lia.
  - destruct (Nat.ltb_spec (length row) (length names)) as [Hshort | Hge].
    + rewrite dict_get_fill, dict_get_zip.
      assert (last_index g names =
              match last_index g (skipn (length row) names) with
              | Some j => Some (length row + j)
              | None => last_index g (firstn (length row) names)
              end) as ->.
      { rewrite <- (firstn_skipn (length row) names) at 1.
        rewrite last_index_app, length_firstn, Nat.min_l by lia. reflexivity. }
      destruct (last_index g (skipn (length row) names)) as [j |].
      * replace (nth_error row (length row + j)) with (@None str); [reflexivity |].
        symmetry. apply nth_error_None. lia.
      * destruct (last_index g (firstn (length row) names)) as [i |] eqn:Ei;
          [| reflexivity].
        apply last_index_lt in Ei. rewrite length_firstn in Ei.
        destruct (nth_error row i) eqn:En; [reflexivity |].
        apply nth_error_None in En. lia.
    + rewrite dict_get_zip, firstn_all2 by lia. simpl.
      destruct (last_index g names) as [i |] eqn:Ei; [| reflexivity].
      apply last_index_lt in Ei.
      destruct (nth_error row i) eqn:En; [reflexivity |].
      apply nth_error_None in En. lia.
Qed.

(* ===================================================================== *)
(** * The group a row is counted under                                    *)
(* ===================================================================== *)

Definition group_name : str := pystr "group".

(** [row['group']] as a key of [groups]. *)
Definition group_of (names row : list str) : outcome key :=
  obind (getitem (row_dict names row) (KStr group_name)) hashable.

Lemma group_of_eq names row :
  group_of names row =
  match field names row group_name with
  | None => Raised (KeyError (KStr group_name))
  | Some VNone => Return KNone
  | Some (VStr s) => Return (KStr s)
  | Some (VList _) => Raised (TypeError Unhashable)
  end.
Proof.
  unfold group_of, getitem. rewrite dict_get_row_dict.
  destruct (field names row group_name) as [[| s | l] |]; reflexivity.
Qed.

Lemma group_of_present names row :
  In group_name names -> exists k, group_of names row = Return k.
Proof.
  intro Hin. rewrite group_of_eq. unfold field.
  destruct (last_index group_name names) as [i |] eqn:E.
  - destruct (nth_error row i); eexists; reflexivity.
  - apply last_index_None in E. tauto.
Qed.

Lemma group_of_absent names row :
  ~ In group_name names ->
  group_of names row = Raised (KeyError (KStr group_name)).
Proof.
  intro Hnotin. rewrite group_of_eq. unfold field.
  apply last_index_None in Hnotin. rewrite Hnotin. reflexivity.
Qed.

(** A row as long as the header, under a header with a group column, is
    counted under a string. *)
Lemma group_of_full names row :
  In group_name names -> length row = length names ->
  exists s, group_of names row = Return (KStr s).
Proof.
  intros Hin Hlen. rewrite group_of_eq. unfold field.
  destruct (last_index group_name names) as [i |] eqn:E.
  - apply last_index_lt in E.
    destruct (nth_error row i) eqn:En; [eexists; reflexivity |].
    apply nth_error_None in En. lia.
  - apply last_index_None in E. tauto.
Qed.

(** One more row for the key [k]. *)
Definition bump (groups : dict Z) (k : key) : dict Z :=
  match dict_get groups k with
  | Some n => dict_set groups k (n + 1)%Z
  | None => dict_set groups k 1%Z
  end.

Lemma count_row_eq names row groups :
  count_row (row_dict names row) groups =
  obind (group_of names row) (fun k => Return (bump groups k)).
Proof.
  unfold count_row, group_of, bump.
  destruct (getitem (row_dict names row) (KStr (pystr "group"))) as [v |] eqn:E;
    fold group_name in E; rewrite E; simpl; [| reflexivity].
  destruct (hashable v) as [k |]; simpl; [| reflexivity].
  unfold getitem. destruct (dict_get groups k); reflexivity.
Qed.

(** The tally of a sequence of keys. *)
Definition tally (ks : list key) : dict Z := fold_left bump ks [].

(** ** The records of a file, as the loop meets them *)

(** The data rows: the records after the header that are not blank, up to
    the end of the file or to the record the reader fails on. *)
Fixpoint data_rows (t : records) : list (list str) :=
  match t with
  | Yield [] rest => data_rows rest
  | Yield row rest => row :: data_rows rest
  | _ => []
  end.

(** How the reading ends: with the reader's failure, or with the file. *)
Fixpoint failure (t : records) : option str :=
  match t with
  | Stop => None
  | Fail msg => Some msg
  | Yield _ rest => failure rest
  end.

(** The groups of the data rows, in order, or the first exception on the
    way. *)
Fixpoint column (names : list str) (t : records) : outcome (list key) :=
  match t with
  | Stop => Return []
  | Fail msg => Raised (ReaderError msg)
  | Yield [] rest => column names rest
  | Yield row rest =>
      obind (group_of names row) (fun k =>
      obind (column names rest) (fun ks => Return (k :: ks)))
  end.

Lemma tally_rows_column names t : forall groups,
  tally_rows names t groups =
  obind (column names t) (fun ks => Return (fold_left bump ks groups)).
Proof.
  induction t as [| msg | row rest IH]; intro groups; try reflexivity.
  destruct row as [| x row]; [apply IH |].
  cbn [tally_rows column]. rewrite count_row_eq.
  destruct (group_of names (x :: row)) as [k | e]; simpl; [| reflexivity].
  rewrite IH. destruct (column names rest); reflexivity.
Qed.

Lemma read_groups_eq file :
  read_groups file =
  match file with
  | None => Raised OSError
  | Some Stop => Return []
  | Some (Fail msg) => Raised (ReaderError msg)
  | Some (Yield names rest) =>
      obind (column names rest) (fun ks => Return (tally ks))
  end.
Proof.
  destruct file as [t |]; [| reflexivity].
  unfold read_groups. rewrite for_rows_init.
  destruct t; try reflexivity. apply tally_rows_column.
Qed.

(** The keys a row is counted under, for rows that are counted. *)
Definition groups_of (names : list str) (rows : list (list str)) : list key :=
  flat_map (fun row => match group_of names row with
                       | Return k => [k]
                       | Raised _ => []
                       end) rows.

Lemma column_Return names t ks :
  column names t = Return ks ->
  failure t = None /\
  ks = groups_of names (data_rows t) /\
  length ks = length (data_rows t).
Proof.
  revert ks. induction t as [| msg | row rest IH]; intros ks; simpl.
  - intros [= <-]. auto.
  - discriminate.
  - destruct row as [| x row]; [apply IH |].
    destruct (group_of names (x :: row)) as [k | e] eqn:Ek; simpl; [| discriminate].
    destruct (column names rest) as [ks' |]; simpl; [| discriminate].
    intros [= <-]. destruct (IH ks' eq_refl) as (Hf & Hks & Hlen).
    rewrite Ek. simpl. repeat split; congruence.
Qed.

Lemma column_present names t :
  In group_name names ->
  column names t =
  match failure t with
  | Some msg => Raised (ReaderError msg)
  | None => Return (groups_of names (data_rows t))
  end.
Proof.
  intro Hin. induction t as [| msg | row rest IH]; simpl; try reflexivity.
  destruct row as [| x row]; [exact IH |].
  destruct (group_of_present names (x :: row) Hin) as [k Ek].
  rewrite Ek, IH. simpl. destruct (failure rest); simpl; rewrite ?Ek; reflexivity.
Qed.

Lemma column_absent names t :
  ~ In group_name names ->
  column names t =
  match data_rows t, failure t with
  | _ :: _, _ => Raised (KeyError (KStr group_name))
  | [], Some msg => Raised (ReaderError msg)
  | [], None => Return []
  end.
Proof.
  intro Hnotin. induction t as [| msg | row rest IH]; simpl; try reflexivity.
  destruct row as [| x row]; [exact IH |].
  rewrite group_of_absent by exact Hnotin. reflexivity.
Qed.

(* ===================================================================== *)
(** * The tally                                                           *)
(* ===================================================================== *)

Local Open Scope Z_scope.

(** The sum of the counts of a dictionary or of a list of items. *)
Definition total (d : list (key * Z)) : Z :=
  fold_right (fun kv acc => snd kv + acc) 0 d.

Definition lookup0 (d : dict Z) (k : key) : Z :=
  match dict_get d k with
  | Some n => n
  | None => 0
  end.

(** The number of keys of [ks] equal to [k]. *)
Definition occurrences (ks : list key) (k : key) : nat :=
  count_occ key_eq_dec ks k.

Lemma total_dict_set d k v : total (dict_set d k v) = total d - lookup0 d k + v.
Proof.
  unfold lookup0. induction d as [| [k' v'] d IH]; simpl; [lia |].
  destruct (key_eqb k' k); simpl; lia.
Qed.

Lemma total_bump groups k : total (bump groups k) = total groups + 1.
Proof.
  unfold bump. destruct (dict_get groups k) as [n |] eqn:E;
    rewrite total_dict_set; unfold lookup0; rewrite E; lia.
Qed.

Lemma total_fold_bump ks : forall groups,
  total (fold_left bump ks groups) = total groups + Z.of_nat (length ks).
Proof.
  induction ks as [| k ks IH]; intro groups; simpl fold_left.
  - simpl. lia.
  - rewrite IH, total_bump. simpl length. lia.
Qed.

Lemma total_Permutation a b : Permutation a b -> total a = total b.
Proof.
  induction 1; simpl; lia.
Qed.

Lemma dict_get_bump_same groups k :
  dict_get (bump groups k) k = Some (lookup0 groups k + 1).
Proof.
  unfold bump, lookup0. destruct (dict_get groups k);
    rewrite dict_get_set_same; reflexivity.
Qed.

Lemma dict_get_bump_other groups k k' :
  k <> k' -> dict_get (bump groups k) k' = dict_get groups k'.
Proof.
  intro Hne. unfold bump. destruct (dict_get groups k);
    apply dict_get_set_other; exact Hne.
Qed.

Lemma NoDup_keys_bump groups k : NoDup (keys groups) -> NoDup (keys (bump groups k)).
Proof.
  unfold bump. destruct (dict_get groups k); apply NoDup_keys_dict_set.
Qed.

Lemma NoDup_keys_fold_bump ks : forall groups,
  NoDup (keys groups) -> NoDup (keys (fold_left bump ks groups)).
Proof.
  induction ks as [| k ks IH]; intros groups Hnd; simpl; [exact Hnd |].
  apply IH, NoDup_keys_bump, Hnd.
Qed.

Lemma dict_get_fold_bump ks k : forall groups,
  dict_get (fold_left bump ks groups) k =
  match occurrences ks k with
  | O => dict_get groups k
  | S _ => Some (lookup0 groups k + Z.of_nat (occurrences ks k))
  end.
Proof.
  unfold occurrences.
  induction ks as [| a ks IH]; intro groups; [reflexivity |].
  simpl fold_left. rewrite IH. simpl count_occ.
  destruct (key_eq_dec a k) as [-> | Hne].
  - unfold lookup0 at 1. rewrite dict_get_bump_same.
    destruct (count_occ key_eq_dec ks k); f_equal; lia.
  - unfold lookup0 at 1. rewrite dict_get_bump_other by exact Hne.
    reflexivity.
Qed.

(** The tally holds, for every key that occurs, the number of times it
    occurs, and nothing else. *)
Lemma dict_get_tally ks k :
  dict_get (tally ks) k =
  match occurrences ks k with
  | O => None
  | S _ => Some (Z.of_nat (occurrences ks k))
  end.
Proof.
  unfold tally. rewrite dict_get_fold_bump.
  destruct (occurrences ks k); reflexivity.
Qed.

Lemma NoDup_keys_tally ks : NoDup (keys (tally ks)).
Proof. apply NoDup_keys_fold_bump. constructor. Qed.

Lemma In_tally ks k n :
  In (k, n) (tally ks) <-> In k ks /\ n = Z.of_nat (occurrences ks k).
Proof.
  split.
  - intro Hin. apply In_dict_get in Hin; [| apply NoDup_keys_tally].
    rewrite dict_get_tally in Hin.
    destruct (occurrences ks k) eqn:E; [discriminate |].
    injection Hin as <-. split; [| reflexivity].
    apply (count_occ_In key_eq_dec). unfold occurrences in E. lia.
  - intros [Hin ->]. apply dict_get_In. rewrite dict_get_tally.
    apply (count_occ_In key_eq_dec) in Hin. unfold occurrences.
    destruct (count_occ key_eq_dec ks k); [lia | reflexivity].
Qed.

Lemma keys_tally ks k : In k (keys (tally ks)) <-> In k ks.
Proof.
  unfold keys. rewrite in_map_iff. split.
  - intros [[k' n] [<- Hin]]. apply In_tally in Hin. tauto.
  - intro Hin. exists (k, Z.of_nat (occurrences ks k)). split; [reflexivity |].
    apply In_tally. tauto.
Qed.

Lemma total_tally ks : total (tally ks) = Z.of_nat (length ks).
Proof. unfold tally. rewrite total_fold_bump. reflexivity. Qed.

(* ===================================================================== *)
(** * Sorting                                                             *)
(* ===================================================================== *)

Definition item_before (x y : key * Z) : Prop := key_before (fst x) (fst y).

Lemma item_lt_distinct x y :
  fst x <> fst y -> item_lt x y = key_lt (fst x) (fst y).
Proof.
  intro Hne. unfold item_lt. apply key_eqb_neq in Hne. rewrite Hne. reflexivity.
Qed.

Lemma insert_Permutation x : forall l l',
  insert x l = Return l' -> Permutation (x :: l) l'.
Proof.
  induction l as [| y l IH]; intros l'; simpl.
  - intros [= <-]. apply Permutation_refl.
  - destruct (item_lt y x) as [[|] |]; simpl; try discriminate.
    + destruct (insert x l) as [l'' |]; simpl; [| discriminate].
      intros [= <-]. rewrite perm_swap. apply perm_skip, IH. reflexivity.
    + intros [= <-]. apply Permutation_refl.
Qed.

Lemma sorted_Permutation : forall l l',
  sorted l = Return l' -> Permutation l l'.
Proof.
  induction l as [| x l IH]; intros l'; simpl.
  - intros [= <-]. constructor.
  - destruct (sorted l) as [s |]; simpl; [| discriminate].
    intro H. apply insert_Permutation in H.
    rewrite <- H. apply perm_skip, IH. reflexivity.
Qed.

Lemma insert_sorted x : forall l l',
  ~ In (fst x) (keys l) ->
  StronglySorted item_before l ->
  insert x l = Return l' ->
  StronglySorted item_before l'.
Proof.
  induction l as [| y l IH]; intros l' Hnotin Hs; simpl.
  - intros [= <-]. repeat constructor.
  - assert (fst y <> fst x) as Hne by (simpl in Hnotin; tauto).
    rewrite (item_lt_distinct _ _ Hne).
    apply StronglySorted_inv in Hs as [Hs Hall].
    destruct x as [[| sx] nx], y as [[| sy] ny]; simpl; try discriminate.
    destruct (str_ltb sy sx) eqn:E.
    + destruct (insert (KStr sx, nx) l) as [l'' |] eqn:Ei; simpl; [| discriminate].
      intros [= <-]. constructor.
      * apply (IH l''); [simpl in Hnotin; tauto | exact Hs | reflexivity].
      * apply insert_Permutation in Ei.
        apply (Permutation_Forall Ei). constructor; [exact E | exact Hall].
    + intros [= <-].
      assert (item_before (KStr sx, nx) (KStr sy, ny)) as Hxy.
      { apply str_ltb_total; [simpl in Hne; congruence | exact E]. }
      constructor; [constructor; assumption |].
      constructor; [exact Hxy |].
      apply (Forall_impl _ (P := item_before (KStr sy, ny))); [| exact Hall].
      intros z Hz. unfold item_before in *. eapply key_before_trans; eassumption.
Qed.

Lemma sorted_sorted : forall l l',
  NoDup (keys l) -> sorted l = Return l' -> StronglySorted item_before l'.
Proof.
  induction l as [| x l IH]; intros l' Hnd; simpl.
  - intros [= <-]. constructor.
  - inversion Hnd as [| ? ? Hnotin Hnd']; subst.
    destruct (sorted l) as [s |] eqn:Es; simpl; [| discriminate].
    apply insert_sorted; [| apply (IH s); [exact Hnd' | reflexivity]].
    intro Hin. apply Hnotin.
    apply sorted_Permutation in Es.
    apply (Permutation_in _ (Permutation_sym (Permutation_map fst Es))).
    exact Hin.
Qed.

(** Items with string keys, all different, are sorted without a failure. *)
Definition is_str (k : key) : Prop :=
  match k with
  | KStr _ => True
  | KNone => False
  end.

Lemma insert_strs x : forall l,
  is_str (fst x) -> Forall is_str (keys l) -> ~ In (fst x) (keys l) ->
  exists l', insert x l = Return l'.
Proof.
  destruct x as [[| sx] nx]; [simpl; tauto |].
  induction l as [| [ky ny] l IH]; intros Hx Hl Hnotin; simpl.
  - eexists. reflexivity.
  - assert (ky <> KStr sx) as Hne by (simpl in Hnotin; tauto).
    rewrite item_lt_distinct by exact Hne.
    inversion Hl as [| ? ? Hy Hl']; subst.
    destruct ky as [| sy]; [contradiction |]. simpl.
    destruct (str_ltb sy sx); [| eexists; reflexivity].
    destruct IH as [l'' ->]; [exact I | exact Hl' | simpl in Hnotin; tauto |].
    eexists. reflexivity.
Qed.

Lemma sorted_strs : forall l,
  Forall is_str (keys l) -> NoDup (keys l) -> exists l', sorted l = Return l'.
Proof.
  induction l as [| x l IH]; intros Hl Hnd; simpl.
  - eexists. reflexivity.
  - inversion Hl as [| ? ? Hx Hl']; inversion Hnd as [| ? ? Hnotin Hnd']; subst.
    destruct (IH Hl' Hnd') as [s Es]. rewrite Es. simpl.
    pose proof (sorted_Permutation _ Es) as Hp.
    apply (Permutation_map fst) in Hp. fold (keys l) (keys s) in Hp.
    apply insert_strs; [exact Hx | | ].
    + apply (Permutation_Forall Hp). exact Hl'.
    + intro Hin. apply Hnotin. apply (Permutation_in _ (Permutation_sym Hp)). exact Hin.
Qed.

(** A single item is sorted as it is, whatever its key. *)
Lemma sorted_single x : sorted [x] = Return [x].
Proof. reflexivity. Qed.

(** The only failure of the sort is a comparison that is not defined. *)
Lemma item_lt_Raised x y e : item_lt x y = Raised e -> e = TypeError NotOrderable.
Proof.
  unfold item_lt, key_lt. destruct (key_eqb (fst x) (fst y)); [discriminate |].
  destruct (fst x), (fst y); congruence.
Qed.

Lemma insert_Raised x e : forall l,
  insert x l = Raised e -> e = TypeError NotOrderable.
Proof.
  induction l as [| y l IH]; simpl; [discriminate |].
  destruct (item_lt y x) as [[|] | e'] eqn:E; simpl.
  - destruct (insert x l) as [l'' |]; simpl; [discriminate |].
    intros [= <-]. apply IH. reflexivity.
  - discriminate.
  - intros [= <-]. apply (item_lt_Raised _ _ E).
Qed.

Lemma sorted_Raised e : forall l,
  sorted l = Raised e -> e = TypeError NotOrderable.
Proof.
  induction l as [| x l IH]; simpl; [discriminate |].
  destruct (sorted l) as [s |]; simpl.
  - apply insert_Raised.
  - intros [= <-]. apply IH. reflexivity.
Qed.

(** [None] among two or more keys stops the sort: it is compared with a
    string. *)
Lemma insert_None_fails x y l :
  fst x <> fst y -> ~ is_str (fst x) \/ ~ is_str (fst y) ->
  insert x (y :: l) = Raised (TypeError NotOrderable).
Proof.
  intros Hne Hnone. simpl.
  rewrite item_lt_distinct by congruence.
  destruct (fst x), (fst y); simpl in *; try reflexivity; tauto.
Qed.

Lemma sorted_None_fails : forall l,
  NoDup (keys l) -> In KNone (keys l) -> (2 <= length l)%nat ->
  sorted l = Raised (TypeError NotOrderable).
Proof.
  induction l as [| x l IH]; intros Hnd Hin Hlen; simpl in *; [lia |].
  inversion Hnd as [| ? ? Hnotin Hnd']; subst.
  destruct (sorted l) as [s |] eqn:Es; simpl.
  - pose proof (sorted_Permutation _ Es) as Hp.
    pose proof (@sorted_sorted _ _ Hnd' Es) as Hs.
    destruct s as [| y s].
    { apply Permutation_length in Hp. simpl in Hp. lia. }
    assert (In (fst y) (keys l)) as Hy.
    { apply (Permutation_in _ (Permutation_sym (Permutation_map fst Hp))).
      left. reflexivity. }
    apply insert_None_fails; [congruence |].
    destruct Hin as [Hx | Hin]; [left; rewrite Hx; simpl; tauto |].
    destruct (fst y) eqn:Ey; [right; simpl; tauto |].
    (* the head of the sorted rest is a string: then [None] is further on,
       after an item it cannot come after *)
    exfalso.
    apply (Permutation_in _ (Permutation_map fst Hp)) in Hin.
    simpl in Hin. destruct Hin as [Hin | Hin]; [congruence |].
    apply StronglySorted_inv in Hs as [_ Hall].
    apply in_map_iff in Hin as [z [Hz Hin]].
    rewrite Forall_forall in Hall. specialize (Hall z Hin).
    unfold item_before in Hall. rewrite Ey, Hz in Hall. exact Hall.
  - apply sorted_Raised in Es. congruence.
Qed.

(** Two sorted lists of the same items are the same list. *)
Lemma sorted_unique : forall a b,
  StronglySorted item_before a -> StronglySorted item_before b ->
  Permutation a b -> a = b.
Proof.
  induction a as [| x a IH]; intros b Ha Hb Hp.
  - apply Permutation_nil in Hp. congruence.
  - destruct b as [| y b].
    { apply Permutation_sym, Permutation_nil in Hp. discriminate. }
    apply StronglySorted_inv in Ha as [Ha Hxa].
    apply StronglySorted_inv in Hb as [Hb Hyb].
    rewrite Forall_forall in Hxa, Hyb.
    assert (x = y) as ->.
    { pose proof (Permutation_in x Hp (or_introl eq_refl)) as Hx.
      pose proof (Permutation_in y (Permutation_sym Hp) (or_introl eq_refl)) as Hy.
      destruct Hx as [Hx | Hx]; [congruence |].
      destruct Hy as [Hy | Hy]; [congruence |].
      exfalso. apply (key_before_irrefl (fst x)).
      apply (@key_before_trans (fst x) (fst y) (fst x) (Hxa y Hy) (Hyb x Hx)). }
    f_equal. apply IH; [exact Ha | exact Hb |].
    apply (Permutation_cons_inv Hp).
Qed.

(** How a sort of items with different keys ends. *)
Lemma sorted_outcome l :
  NoDup (keys l) ->
  (exists l', sorted l = Return l') \/
  (sorted l = Raised (TypeError NotOrderable) /\
   In KNone (keys l) /\ (2 <= length l)%nat).
Proof.
  intro Hnd. destruct (in_dec key_eq_dec KNone (keys l)) as [Hin | Hnotin].
  - destruct l as [| x [| y l]].
    + left. eexists. reflexivity.
    + left. eexists. reflexivity.
    + right. split; [| split; [exact Hin | simpl; lia]].
      apply sorted_None_fails; [exact Hnd | exact Hin | simpl; lia].
  - left. apply sorted_strs; [| exact Hnd].
    apply Forall_forall. intros [| s] Hk; [contradiction | exact I].
Qed.

Lemma sorted_Permutation_eq a b :
  NoDup (keys a) -> Permutation a b -> sorted a = sorted b.
Proof.
  intros Hnd Hp.
  assert (Permutation (keys a) (keys b)) as Hk by exact (Permutation_map fst Hp).
  assert (NoDup (keys b)) as Hnd' by exact (Permutation_NoDup Hk Hnd).
  destruct (sorted_outcome a Hnd) as [[a' Ha] | (Ha & Hin & Hlen)];
    destruct (sorted_outcome b Hnd') as [[b' Hb] | (Hb & Hin' & Hlen')].
  - rewrite Ha, Hb. f_equal.
    apply sorted_unique.
    + apply (@sorted_sorted _ _ Hnd Ha).
    + apply (@sorted_sorted _ _ Hnd' Hb).
    + rewrite <- (sorted_Permutation _ Ha), <- (sorted_Permutation _ Hb).
      exact Hp.
  - rewrite sorted_None_fails in Ha; [discriminate | exact Hnd | |].
    + apply (Permutation_in _ (Permutation_sym Hk)). exact Hin'.
    + rewrite (Permutation_length Hp). exact Hlen'.
  - rewrite sorted_None_fails in Hb; [discriminate | exact Hnd' | |].
    + apply (Permutation_in _ Hk). exact Hin.
    + rewrite <- (Permutation_length Hp). exact Hlen.
  - congruence.
Qed.

(* ===================================================================== *)
(** * The report                                                          *)
(* ===================================================================== *)

(** The items of the report: the tally, sorted. *)
Definition report (file : option records) : outcome (list (key * Z)) :=
  obind (read_groups file) sorted.

(** All the records after the header. *)
Fixpoint rows (t : records) : list (list str) :=
  match t with
  | Yield row rest => row :: rows rest
  | _ => []
  end.

(** The groups observed in a file: those of its data rows, in order. *)
Definition observed (file : option records) : list key :=
  match file with
  | Some (Yield names rest) => groups_of names (data_rows rest)
  | _ => []
  end.

(** A well-formed input with a group column: a header that names it, then
    records with as many fields as the header, read to the end. *)
Definition well_formed (names : list str) (rest : records) : Prop :=
  In group_name names /\
  failure rest = None /\
  Forall (fun row => length row = length names) (rows rest).

(** The data rows whose group field is a string that is not empty. *)
Definition nonempty_group (names row : list str) : bool :=
  match field names row group_name with
  | Some (VStr (_ :: _)) => true
  | _ => false
  end.

Lemma run_report file :
  run file =
  match report file with
  | Return items => (header_line :: map group_line items, None)
  | Raised e =>
      (match read_groups file with
       | Return _ => [header_line]
       | Raised _ => []
       end, Some e)
  end.
Proof.
  rewrite run_eq. unfold report.
  destruct (read_groups file) as [groups | e]; simpl; [| reflexivity].
  destruct (sorted groups); reflexivity.
Qed.

Lemma read_groups_observed file groups :
  read_groups file = Return groups -> groups = tally (observed file).
Proof.
  rewrite read_groups_eq.
  destruct file as [[| msg | names rest] |]; simpl; try discriminate.
  - intros [= <-]. reflexivity.
  - destruct (column names rest) as [ks |] eqn:E; simpl; [| discriminate].
    intros [= <-]. apply column_Return in E as (_ & -> & _). reflexivity.
Qed.

Lemma StronglySorted_keys items :
  StronglySorted item_before items -> StronglySorted key_before (keys items).
Proof.
  induction 1 as [| x l Hs IH Hall]; simpl; constructor; [exact IH |].
  unfold keys. rewrite Forall_map. exact Hall.
Qed.

(** A run that ends well has printed the header line and one line per item
    of the sorted tally of the observed groups. *)
Lemma run_success file out :
  run file = (out, None) ->
  exists items,
    report file = Return items /\
    out = header_line :: map group_line items /\
    Permutation (tally (observed file)) items /\
    StronglySorted item_before items.
Proof.
  rewrite run_report. unfold report.
  destruct (read_groups file) as [groups |] eqn:Er; simpl; [| discriminate].
  destruct (sorted groups) as [items |] eqn:Es; [| discriminate].
  intros [= <-]. exists items.
  apply read_groups_observed in Er. subst groups.
  repeat split.
  - apply sorted_Permutation. exact Es.
  - apply (@sorted_sorted _ _ (NoDup_keys_tally _) Es).
Qed.

Lemma data_rows_full names rest :
  In group_name names ->
  Forall (fun row => length row = length names) (rows rest) ->
  data_rows rest = rows rest.
Proof.
  intros Hin. induction rest as [| msg | row rest IH]; simpl; try reflexivity.
  intro Hall. inversion Hall as [| ? ? Hlen Hall']; subst.
  destruct row as [| x row].
  - destruct names; [contradiction | discriminate].
  - f_equal. apply IH. exact Hall'.
Qed.

Lemma groups_of_length names rws :
  In group_name names -> length (groups_of names rws) = length rws.
Proof.
  intro Hin. induction rws as [| row rws IH]; simpl; [reflexivity |].
  destruct (group_of_present names row Hin) as [k ->]. simpl. congruence.
Qed.

Lemma groups_of_full names rws :
  In group_name names ->
  Forall (fun row => length row = length names) rws ->
  Forall is_str (groups_of names rws).
Proof.
  intros Hin. induction 1 as [| row rws Hlen Hall IH]; simpl; [constructor |].
  destruct (group_of_full names row Hin Hlen) as [s ->]. simpl.
  constructor; [exact I | exact IH].
Qed.

(* ===================================================================== *)
(** * Properties of the run                                               *)
(* ===================================================================== *)

(** ** The sum of the counts *)

(** C1, as the code has it: for every well-formed input whose header has a
    "group" column the run ends well, and the counts of the printed report
    add up to the number of data rows (the records after the header),
    whatever their group field: a row whose group is the empty string is
    counted like any other. *)
Theorem sum_of_counts_is_number_of_data_rows names rest :
  well_formed names rest ->
  exists items,
    report (Some (Yield names rest)) = Return items /\
    run (Some (Yield names rest)) = (header_line :: map group_line items, None) /\
    total items = Z.of_nat (length (rows rest)).
Proof.
  intros (Hin & Hend & Hall).
  pose proof (data_rows_full names rest Hin Hall) as Hrows.
  assert (read_groups (Some (Yield names rest)) =
          Return (tally (groups_of names (rows rest)))) as Hread.
  { rewrite read_groups_eq, column_present, Hend, Hrows by exact Hin. reflexivity. }
  destruct (@sorted_strs (tally (groups_of names (rows rest)))) as [items Hs].
  { apply Forall_forall. intros k Hk. apply (proj1 (keys_tally _ _)) in Hk.
    pose proof (groups_of_full names Hin Hall) as Hstr.
    rewrite Forall_forall in Hstr. apply Hstr. exact Hk. }
  { apply NoDup_keys_tally. }
  exists items.
  assert (report (Some (Yield names rest)) = Return items) as Hrep.
  { unfold report. rewrite Hread. exact Hs. }
  split; [exact Hrep |]. split.
  - rewrite run_report, Hrep. reflexivity.
  - rewrite <- (total_Permutation (sorted_Permutation _ Hs)).
    rewrite total_tally, groups_of_length by exact Hin. reflexivity.
Qed.

Lemma sum_of_counts_witness :
  exists items,
    report (Some (Yield [group_name; pystr "id"]
                   (Yield [pystr "A"; pystr "1"]
                   (Yield [pystr ""; pystr "2"] Stop)))) = Return items /\
    run (Some (Yield [group_name; pystr "id"]
                (Yield [pystr "A"; pystr "1"]
                (Yield [pystr ""; pystr "2"] Stop))))
      = (header_line :: map group_line items, None) /\
    total items = 2.
Proof.
  apply (@sum_of_counts_is_number_of_data_rows
           [group_name; pystr "id"]
           (Yield [pystr "A"; pystr "1"] (Yield [pystr ""; pystr "2"] Stop))).
  unfold well_formed. split; [left; reflexivity |]. split; [reflexivity |].
  repeat constructor.
Defined.

(** C1 as stated fails: on a well-formed two-column file whose only data row
    has an empty group, the report prints the count 1, while no data row has
    a non-empty group. *)
Lemma sum_of_counts_counts_empty_groups :
  let names := [group_name; pystr "id"] in
  let rest := Yield [pystr ""; pystr "1"] Stop in
  well_formed names rest /\ NoDup names /\
  report (Some (Yield names rest)) = Return [(KStr (pystr ""), 1)] /\
  run (Some (Yield names rest)) = ([header_line; pystr "- : 1 fields"], None) /\
  total [(KStr (pystr ""), 1)] <>
    Z.of_nat (length (filter (nonempty_group names) (data_rows rest))).
Proof.
  cbv zeta. split; [| split; [| split; [| split]]].
  - unfold well_formed. split; [left; reflexivity |]. split; [reflexivity |].
    repeat constructor.
  - repeat constructor; simpl; intuition discriminate.
  - vm_compute. reflexivity.
  - vm_compute. reflexivity.
  - vm_compute. discriminate.
Qed.

(** ** A header without the group column *)

(** C2, as the code has it: when the header lacks a "group" column and the
    file has at least one data row, the run fails with [KeyError('group')]
    at the first of them and prints nothing, neither the header line nor a
    group line. *)
Theorem missing_group_column_fails names rest :
  ~ In group_name names ->
  data_rows rest <> [] ->
  run (Some (Yield names rest)) = ([], Some (KeyError (KStr group_name))).
Proof.
  intros Hnotin Hrows.
  rewrite run_eq, read_groups_eq, column_absent by exact Hnotin.
  destruct (data_rows rest); [congruence | reflexivity].
Qed.

Lemma missing_group_column_witness :
  run (Some (Yield [pystr "id"; pystr "name"]
              (Yield [pystr "1"; pystr "x"] Stop)))
  = ([], Some (KeyError (KStr group_name))).
Proof.
  apply missing_group_column_fails.
  - simpl. intuition discriminate.
  - simpl. discriminate.
Defined.

(** C2 as stated fails twice. A file that is only a header without the
    group column is read and reported without any failure; and a data row
    too short to reach the group column is not a missing field: its group
    reads as [None] and is counted and printed. *)
Lemma missing_group_unnoticed :
  (~ In group_name [pystr "id"] /\
   run (Some (Yield [pystr "id"] Stop)) = ([header_line], None)) /\
  (field [pystr "id"; group_name] [pystr "1"] group_name = Some VNone /\
   run (Some (Yield [pystr "id"; group_name] (Yield [pystr "1"] Stop)))
   = ([header_line; pystr "- None: 1 fields"], None)).
Proof.
  split; split.
  - simpl. intuition discriminate.
  - vm_compute. reflexivity.
  - vm_compute. reflexivity.
  - vm_compute. reflexivity.
Qed.

(** ** Nothing is printed before the file is read *)

(** C3: when opening the file or processing a row raises, the run ends with
    that exception and the terminal is as it was: nothing has been printed.
    The header line and the report come only after the whole file is read. *)
Theorem no_output_when_reading_fails w e :
  read_groups (files w path) = Raised e ->
  main w = (Raised e, w).
Proof.
  intro H. rewrite main_eq, H. reflexivity.
Qed.

Lemma no_output_when_reading_fails_witness :
  main (world_of (Some (Yield [group_name] (Yield [pystr "A"]
                        (Fail (pystr "line contains NUL"))))))
  = (Raised (ReaderError (pystr "line contains NUL")),
     world_of (Some (Yield [group_name] (Yield [pystr "A"]
                      (Fail (pystr "line contains NUL")))))).
Proof.
  apply no_output_when_reading_fails. vm_compute. reflexivity.
Defined.

(** Conversely, a run that printed anything had read its file to the end. *)
Lemma output_only_after_reading w :
  stdout (snd (main w)) <> stdout w ->
  exists groups, read_groups (files w path) = Return groups.
Proof.
  rewrite main_eq.
  destruct (read_groups (files w path)) as [groups | e]; simpl.
  - intros _. exists groups. reflexivity.
  - congruence.
Qed.

(** ** Rows that are too short or too long *)

Lemma groups_of_strs names rws :
  Forall (fun row => exists s, field names row group_name = Some (VStr s)) rws ->
  Forall is_str (groups_of names rws).
Proof.
  induction 1 as [| row rws [s Hrow] Hall IH]; simpl; [constructor |].
  rewrite group_of_eq, Hrow. simpl. constructor; [exact I | exact IH].
Qed.

(** C4, as the code has it: a data row whose number of fields is not the
    header's causes no failure while the file is read. [DictReader] pads a
    short row with [None] and keeps the surplus of a long one under the key
    [None]; under a header with a "group" column every data row, whatever
    its number of fields, is counted once under its group. When the file is
    read to its end and every data row is long enough to have a field in the
    group column, the run ends well and its report counts all the data rows.
    A failure of the CSV reader itself is passed on: it ends the run with
    nothing printed. *)
Theorem field_count_is_not_checked names rest :
  In group_name names ->
  read_groups (Some (Yield names rest)) =
    match failure rest with
    | Some msg => Raised (ReaderError msg)
    | None => Return (tally (groups_of names (data_rows rest)))
    end /\
  length (groups_of names (data_rows rest)) = length (data_rows rest) /\
  (forall msg, failure rest = Some msg ->
     run (Some (Yield names rest)) = ([], Some (ReaderError msg))) /\
  (failure rest = None ->
   Forall (fun row => exists s, field names row group_name = Some (VStr s))
          (data_rows rest) ->
   exists items,
     report (Some (Yield names rest)) = Return items /\
     run (Some (Yield names rest)) = (header_line :: map group_line items, None) /\
     total items = Z.of_nat (length (data_rows rest))).
Proof.
  intro Hin.
  assert (read_groups (Some (Yield names rest)) =
          match failure rest with
          | Some msg => Raised (ReaderError msg)
          | None => Return (tally (groups_of names (data_rows rest)))
          end) as Hread.
  { rewrite read_groups_eq, column_present by exact Hin.
    destruct (failure rest); reflexivity. }
  split; [exact Hread |]. split; [apply groups_of_length; exact Hin |]. split.
  - intros msg Hf. rewrite run_eq, Hread, Hf. reflexivity.
  - intros Hend Hall. rewrite Hend in Hread.
    destruct (@sorted_strs (tally (groups_of names (data_rows rest))))
      as [items Hs].
    { apply Forall_forall. intros k Hk. apply (proj1 (keys_tally _ _)) in Hk.
      pose proof (@groups_of_strs _ _ Hall) as Hstr.
      rewrite Forall_forall in Hstr. apply Hstr. exact Hk. }
    { apply NoDup_keys_tally. }
    exists items.
    assert (report (Some (Yield names rest)) = Return items) as Hrep.
    { unfold report. rewrite Hread. exact Hs. }
    split; [exact Hrep |]. split.
    + rewrite run_report, Hrep. reflexivity.
    + rewrite <- (total_Permutation (sorted_Permutation _ Hs)).
      rewrite total_tally, groups_of_length by exact Hin. reflexivity.
Qed.

Lemma field_count_is_not_checked_witness :
  exists items,
    report (Some (Yield [group_name; pystr "id"]
              (Yield [pystr "A"] (Yield [pystr "B"; pystr "2"; pystr "x"] Stop))))
      = Return items /\
    run (Some (Yield [group_name; pystr "id"]
           (Yield [pystr "A"] (Yield [pystr "B"; pystr "2"; pystr "x"] Stop))))
      = (header_line :: map group_line items, None) /\
    total items = 2.
Proof.
  destruct (@field_count_is_not_checked [group_name; pystr "id"]
              (Yield [pystr "A"] (Yield [pystr "B"; pystr "2"; pystr "x"] Stop)))
    as (_ & _ & _ & H).
  - left. reflexivity.
  - apply H; [reflexivity |].
    constructor; [exists (pystr "A"); reflexivity |].
    constructor; [exists (pystr "B"); reflexivity |].
    constructor.
Defined.

(** C4 as stated fails: a data row with one field and a data row with three,
    under a header of two, are read, counted and reported, and the run ends
    well. *)
Lemma field_count_mismatch_goes_through :
  let names := [group_name; pystr "id"] in
  let short := [pystr "A"] in
  let long := [pystr "B"; pystr "2"; pystr "x"] in
  length short <> length names /\ length long <> length names /\
  run (Some (Yield names (Yield short (Yield long Stop))))
  = ([header_line; pystr "- A: 1 fields"; pystr "- B: 1 fields"], None).
Proof.
  cbv zeta. split; [| split].
  - simpl. lia.
  - simpl. lia.
  - vm_compute. reflexivity.
Qed.

(** ** The order of the report *)

Lemma report_items file items k n :
  Permutation (tally (observed file)) items ->
  In (k, n) items <->
  In k (observed file) /\ n = Z.of_nat (occurrences (observed file) k).
Proof.
  intro Hp. rewrite <- In_tally. split; apply Permutation_in;
    [apply Permutation_sym |]; exact Hp.
Qed.

(** C5: a run that ends well prints, after the header line, one line per
    item of a list in which every observed group occurs, no group occurs
    twice, and the groups ascend in the lexicographic order of their
    names. *)
Theorem groups_listed_once_in_order file out :
  run file = (out, None) ->
  exists items,
    report file = Return items /\
    out = header_line :: map group_line items /\
    NoDup (keys items) /\
    (forall k, In k (keys items) <-> In k (observed file)) /\
    StronglySorted key_before (keys items).
Proof.
  intro Hrun. destruct (run_success _ Hrun) as (items & Hrep & Hout & Hp & Hs).
  exists items. split; [exact Hrep |]. split; [exact Hout |].
  assert (Permutation (keys (tally (observed file))) (keys items)) as Hk
    by exact (Permutation_map fst Hp).
  split; [| split].
  - apply (Permutation_NoDup Hk). apply NoDup_keys_tally.
  - intro k. split; intro H.
    + apply keys_tally. apply (Permutation_in _ (Permutation_sym Hk)). exact H.
    + apply (Permutation_in _ Hk). apply keys_tally. exact H.
  - apply StronglySorted_keys. exact Hs.
Qed.

Lemma groups_listed_once_in_order_witness :
  exists items,
    report (Some (Yield [group_name]
              (Yield [pystr "B"] (Yield [pystr "A"] (Yield [pystr "B"] Stop)))))
      = Return items /\
    [header_line; pystr "- A: 1 fields"; pystr "- B: 2 fields"]
      = header_line :: map group_line items /\
    NoDup (keys items) /\
    (forall k, In k (keys items) <->
               In k [KStr (pystr "B"); KStr (pystr "A"); KStr (pystr "B")]) /\
    StronglySorted key_before (keys items).
Proof.
  apply (@groups_listed_once_in_order
           (Some (Yield [group_name]
              (Yield [pystr "B"] (Yield [pystr "A"] (Yield [pystr "B"] Stop)))))).
  vm_compute. reflexivity.
Defined.

(** ** The example of the specification *)

Lemma column_of_groups names : forall rest ks,
  failure rest = None ->
  map (group_of names) (data_rows rest) = map (@Return key) ks ->
  column names rest = Return ks.
Proof.
  induction rest as [| msg | row rest IH]; intros ks Hend Hks; simpl in *.
  - destruct ks; [reflexivity | discriminate].
  - discriminate.
  - destruct row as [| x row]; [apply IH; assumption |].
    destruct ks as [| k ks]; [discriminate |].
    simpl in Hks. injection Hks as Hk Hks.
    rewrite Hk, (IH ks Hend Hks). reflexivity.
Qed.

(** C6: when the data rows carry the groups A, B, A, C, B, A, the output is
    the header line followed by exactly the lines of A with 3, B with 2 and
    C with 1, in this order, each of the form [- {group}: {count} fields]. *)
Theorem report_of_ABACBA names rest :
  failure rest = None ->
  map (group_of names) (data_rows rest)
    = map (fun s => Return (KStr (pystr s))) ["A"; "B"; "A"; "C"; "B"; "A"]%string ->
  run (Some (Yield names rest))
  = ([pystr "Groups found:";
      pystr "- A: 3 fields";
      pystr "- B: 2 fields";
      pystr "- C: 1 fields"], None).
Proof.
  intros Hend Hks.
  rewrite run_eq, read_groups_eq.
  rewrite (@column_of_groups names rest
             (map (fun s => KStr (pystr s)) ["A"; "B"; "A"; "C"; "B"; "A"]%string)
             Hend Hks).
  vm_compute. reflexivity.
Qed.

Lemma report_of_ABACBA_witness :
  run (Some (Yield [pystr "field"; group_name]
        (Yield [pystr "f1"; pystr "A"] (Yield [pystr "f2"; pystr "B"]
        (Yield [pystr "f3"; pystr "A"] (Yield [pystr "f4"; pystr "C"]
        (Yield [pystr "f5"; pystr "B"] (Yield [pystr "f6"; pystr "A"] Stop))))))))
  = ([pystr "Groups found:";
      pystr "- A: 3 fields";
      pystr "- B: 2 fields";
      pystr "- C: 1 fields"], None).
Proof.
  apply report_of_ABACBA.
  - reflexivity.
  - vm_compute. reflexivity.
Defined.

(** ** A file with a header only *)

(** C7: on a file that is a header and nothing else the run ends well and
    prints the line [Groups found:] and no other. *)
Theorem header_only_prints_header_line names :
  run (Some (Yield names Stop)) = ([pystr "Groups found:"], None).
Proof.
  rewrite run_eq, read_groups_eq. reflexivity.
Qed.

(** ** Rows with an empty group *)

(** The data rows counted under the key [k]. *)
Definition rows_with (names : list str) (k : key) (rws : list (list str))
  : list (list str) :=
  filter (fun row => match group_of names row with
                     | Return k' => key_eqb k' k
                     | Raised _ => false
                     end) rws.

Lemma occurrences_groups_of names k rws :
  occurrences (groups_of names rws) k = length (rows_with names k rws).
Proof.
  unfold occurrences. induction rws as [| row rws IH]; simpl; [reflexivity |].
  destruct (group_of names row) as [k' | e]; simpl; [| exact IH].
  destruct (key_eq_dec k' k) as [-> | Hne].
  - rewrite key_eqb_refl. simpl. congruence.
  - apply key_eqb_neq in Hne. rewrite Hne. exact IH.
Qed.

Lemma groups_of_In names row k rws :
  In row rws -> group_of names row = Return k -> In k (groups_of names rws).
Proof.
  intros Hin Hk. unfold groups_of. apply in_flat_map.
  exists row. rewrite Hk. simpl. tauto.
Qed.

(** C8: when a data row has the empty string as its group, a run that ends
    well reports the empty string as a group of its own, and its count is the
    number of data rows whose group is the empty string: the row is counted,
    not skipped. *)
Theorem empty_group_is_counted names rest out row :
  run (Some (Yield names rest)) = (out, None) ->
  In row (data_rows rest) ->
  field names row group_name = Some (VStr []) ->
  exists items,
    report (Some (Yield names rest)) = Return items /\
    out = header_line :: map group_line items /\
    In row (rows_with names (KStr []) (data_rows rest)) /\
    In (KStr [], Z.of_nat (length (rows_with names (KStr []) (data_rows rest))))
       items.
Proof.
  intros Hrun Hin Hfield.
  assert (group_of names row = Return (KStr [])) as Hg
    by (rewrite group_of_eq, Hfield; reflexivity).
  destruct (run_success _ Hrun) as (items & Hrep & Hout & Hp & _).
  exists items. split; [exact Hrep |]. split; [exact Hout |]. split.
  - unfold rows_with. apply filter_In. split; [exact Hin |].
    rewrite Hg. reflexivity.
  - apply (report_items _ (KStr []) _ Hp). simpl observed. split.
    + apply (groups_of_In _ _ _ Hin Hg).
    + rewrite occurrences_groups_of. reflexivity.
Qed.

Lemma empty_group_is_counted_witness :
  exists items,
    report (Some (Yield [group_name; pystr "id"]
              (Yield [pystr ""; pystr "1"] (Yield [pystr "A"; pystr "2"]
              (Yield [pystr ""; pystr "3"] Stop))))) = Return items /\
    [header_line; pystr "- : 2 fields"; pystr "- A: 1 fields"]
      = header_line :: map group_line items /\
    In [pystr ""; pystr "1"]
       (rows_with [group_name; pystr "id"] (KStr [])
          [[pystr ""; pystr "1"]; [pystr "A"; pystr "2"]; [pystr ""; pystr "3"]]) /\
    In (KStr [], 2) items.
Proof.
  apply (@empty_group_is_counted
           [group_name; pystr "id"]
           (Yield [pystr ""; pystr "1"] (Yield [pystr "A"; pystr "2"]
             (Yield [pystr ""; pystr "3"] Stop)))
           [header_line; pystr "- : 2 fields"; pystr "- A: 1 fields"]
           [pystr ""; pystr "1"]).
  - vm_compute. reflexivity.
  - simpl. left. reflexivity.
  - vm_compute. reflexivity.
Defined.

(** ** Two runs *)

(** What a run of the script does to a world, but for the lines already
    on the terminal: how it ends and the lines it prints. It is settled by
    the file at the path, the encoding of the terminal and the order in which
    the dictionary hands out its items. *)
Definition outcome_of (items : items_order) (file : option records)
    (enc : N -> bool) : outcome unit * list str :=
  match read_groups file with
  | Raised e => (Raised e, [])
  | Return groups =>
      if forallb enc header_line then
        match sorted (items groups) with
        | Raised e => (Raised e, [header_line])
        | Return sorted_items =>
            (if all_encodable enc (map group_line sorted_items)
             then Return tt else Raised UnicodeEncodeError,
             header_line :: lines_out enc (map group_line sorted_items))
        end
      else (Raised UnicodeEncodeError, [])
  end.

Lemma script_outcome items w :
  script items w =
  (fst (outcome_of items (files w path) (encodes w)),
   printed w (snd (outcome_of items (files w path) (encodes w)))).
Proof.
  rewrite script_eq. unfold outcome_of, encodable.
  destruct (read_groups (files w path)) as [groups | e]; cbn [fst snd];
    [| rewrite printed_nil; reflexivity].
  destruct (forallb (encodes w) header_line); cbn [fst snd];
    [| rewrite printed_nil; reflexivity].
  destruct (sorted (items groups)); reflexivity.
Qed.

Lemma read_groups_NoDup file groups :
  read_groups file = Return groups -> NoDup (keys groups).
Proof.
  intro H. apply read_groups_observed in H. subst groups.
  apply NoDup_keys_tally.
Qed.

(** The order of the items does not show: [sorted] undoes it. *)
Lemma outcome_of_any_order (items items' : items_order) file enc :
  (forall groups, Permutation groups (items groups)) ->
  (forall groups, Permutation groups (items' groups)) ->
  outcome_of items file enc = outcome_of items' file enc.
Proof.
  intros Hp Hp'. unfold outcome_of.
  destruct (read_groups file) as [groups | e] eqn:Er; [| reflexivity].
  destruct (forallb enc header_line); [| reflexivity].
  rewrite (@sorted_Permutation_eq (items groups) (items' groups)).
  - reflexivity.
  - apply (Permutation_NoDup (Permutation_map fst (Hp groups))).
    apply (read_groups_NoDup _ Er).
  - rewrite <- (Hp groups). apply Hp'.
Qed.

(** C9: two runs on the same files, one after the other on the same
    terminal, end the same way and print the same lines, also when the
    dictionary of the second run hands out its items in another order than
    that of the first (the order is not fixed by the file: it is the order of
    insertion, or, before Python 3.7, whatever the hash seed of the process
    makes it): the tally is reset by every run, the files are left as they
    are, and [sorted] puts the items in the one order of their keys. *)
Theorem second_run_prints_the_same w (items items' : items_order) :
  (forall groups, Permutation groups (items groups)) ->
  (forall groups, Permutation groups (items' groups)) ->
  let first := script items w in
  let second := script items' (snd first) in
  fst second = fst first /\
  files (snd first) = files w /\
  exists out,
    stdout (snd first) = stdout w ++ out /\
    stdout (snd second) = stdout (snd first) ++ out.
Proof.
  intros Hp Hp'. cbv zeta.
  rewrite (script_outcome items w). cbn [fst snd].
  rewrite (script_outcome items' (printed w _)). cbn [fst snd printed files encodes stdout].
  rewrite (@outcome_of_any_order items' items (files w path) (encodes w) Hp' Hp).
  split; [reflexivity |]. split; [reflexivity |].
  eexists. split; reflexivity.
Qed.

Lemma second_run_prints_the_same_witness :
  let w := world_of (Some (Yield [group_name]
             (Yield [pystr "B"] (Yield [pystr "A"] (Yield [pystr "B"] Stop))))) in
  let first := script insertion_order w in
  let second := script (@rev (key * Z)) (snd first) in
  fst second = fst first /\
  files (snd first) = files w /\
  exists out,
    stdout (snd first) = stdout w ++ out /\
    stdout (snd second) = stdout (snd first) ++ out.
Proof.
  apply (@second_run_prints_the_same
           (world_of (Some (Yield [group_name]
              (Yield [pystr "B"] (Yield [pystr "A"] (Yield [pystr "B"] Stop))))))
           insertion_order (@rev (key * Z))).
  - intro groups. apply Permutation_refl.
  - intro groups. apply Permutation_rev.
Defined.

(** The sort is what makes it so: were the items printed as the dictionary
    hands them out, the two orders would show. *)
Lemma orders_differ_before_the_sort :
  let groups := tally [KStr (pystr "B"); KStr (pystr "A")] in
  map group_line (insertion_order groups) <> map group_line (rev groups) /\
  sorted (insertion_order groups) = sorted (rev groups).
Proof.
  cbv zeta. split; [vm_compute; discriminate | vm_compute; reflexivity].
Qed.

(** ** No group with count zero *)

(** C10: in the report of a run that ends well every count is at least 1. *)
Theorem counts_are_positive file out :
  run file = (out, None) ->
  exists items,
    report file = Return items /\
    out = header_line :: map group_line items /\
    Forall (fun item => 1 <= snd item) items.
Proof.
  intro Hrun. destruct (run_success _ Hrun) as (items & Hrep & Hout & Hp & _).
  exists items. split; [exact Hrep |]. split; [exact Hout |].
  apply Forall_forall. intros [k n] Hin. simpl.
  apply (report_items _ k n Hp) in Hin as [Hin ->].
  apply (count_occ_In key_eq_dec) in Hin. unfold occurrences. lia.
Qed.

Lemma counts_are_positive_witness :
  exists items,
    report (Some (Yield [group_name]
              (Yield [pystr "B"] (Yield [pystr "A"] (Yield [pystr "B"] Stop)))))
      = Return items /\
    [header_line; pystr "- A: 1 fields"; pystr "- B: 2 fields"]
      = header_line :: map group_line items /\
    Forall (fun item => 1 <= snd item) items.
Proof.
  apply (@counts_are_positive
           (Some (Yield [group_name]
              (Yield [pystr "B"] (Yield [pystr "A"] (Yield [pystr "B"] Stop)))))).
  vm_compute. reflexivity.
Defined.

(* ===================================================================== *)
(** * Further properties of the script                                    *)
(* ===================================================================== *)

Lemma str_eq_dec (a b : str) : {a = b} + {a <> b}.
Proof. apply list_eq_dec, N.eq_dec. Defined.

(** ** The count of every group *)

(** X1: in the report of a run that ends well, an item [(k, n)] is there
    exactly when [n] is the number of data rows whose group is [k] and there
    is such a row: every group is printed with the number of its rows. *)
Theorem report_counts_rows_per_group names rest out :
  run (Some (Yield names rest)) = (out, None) ->
  exists items,
    report (Some (Yield names rest)) = Return items /\
    out = header_line :: map group_line items /\
    forall k n,
      In (k, n) items <->
      1 <= n /\ n = Z.of_nat (length (rows_with names k (data_rows rest))).
Proof.
  intro Hrun. destruct (run_success _ Hrun) as (items & Hrep & Hout & Hp & _).
  exists items. split; [exact Hrep |]. split; [exact Hout |].
  intros k n. rewrite (report_items _ k n Hp). simpl observed.
  rewrite <- occurrences_groups_of. unfold occurrences.
  rewrite (count_occ_In key_eq_dec). split; intros [H ->]; split;
    try reflexivity; lia.
Qed.

Lemma report_counts_rows_per_group_witness :
  exists items,
    report (Some (Yield [group_name]
              (Yield [pystr "B"] (Yield [pystr "A"] (Yield [pystr "B"] Stop)))))
      = Return items /\
    [header_line; pystr "- A: 1 fields"; pystr "- B: 2 fields"]
      = header_line :: map group_line items /\
    forall k n,
      In (k, n) items <->
      1 <= n /\
      n = Z.of_nat (length (rows_with [group_name] k
                              [[pystr "B"]; [pystr "A"]; [pystr "B"]])).
Proof.
  apply (@report_counts_rows_per_group [group_name]
           (Yield [pystr "B"] (Yield [pystr "A"] (Yield [pystr "B"] Stop)))).
  vm_compute. reflexivity.
Defined.

(** ** The order of the rows *)

Lemma tally_Permutation ks ks' :
  Permutation ks ks' -> Permutation (tally ks) (tally ks').
Proof.
  intro Hp. apply NoDup_Permutation.
  - apply (NoDup_map_inv fst). apply NoDup_keys_tally.
  - apply (NoDup_map_inv fst). apply NoDup_keys_tally.
  - intros [k n]. rewrite !In_tally. unfold occurrences.
    rewrite (proj1 (Permutation_count_occ key_eq_dec ks ks') Hp k).
    split; intros [Hin ->]; (split; [| reflexivity]).
    + apply (Permutation_in _ Hp). exact Hin.
    + apply (Permutation_in _ (Permutation_sym Hp)). exact Hin.
Qed.

(** X2: the run does not depend on the order of the data rows: two files
    with the same header whose data rows are the same up to their order, and
    that end the same way, give the same output and the same exit. *)
Theorem row_order_is_irrelevant names rest rest' :
  failure rest = failure rest' ->
  Permutation (data_rows rest) (data_rows rest') ->
  run (Some (Yield names rest)) = run (Some (Yield names rest')).
Proof.
  intros Hf Hp. rewrite !run_eq, !read_groups_eq.
  destruct (in_dec str_eq_dec group_name names) as [Hin | Hnotin].
  - rewrite !column_present, <- Hf by exact Hin.
    destruct (failure rest); [reflexivity |]. simpl.
    rewrite (@sorted_Permutation_eq
               (tally (groups_of names (data_rows rest)))
               (tally (groups_of names (data_rows rest')))).
    + reflexivity.
    + apply NoDup_keys_tally.
    + apply tally_Permutation. unfold groups_of.
      apply Permutation_flat_map. exact Hp.
  - rewrite !column_absent, <- Hf by exact Hnotin.
    destruct (data_rows rest) as [| r rs], (data_rows rest') as [| r' rs'];
      try reflexivity.
    + apply Permutation_nil in Hp. discriminate.
    + apply Permutation_sym, Permutation_nil in Hp. discriminate.
Qed.

Lemma row_order_is_irrelevant_witness :
  run (Some (Yield [group_name]
        (Yield [pystr "B"] (Yield [pystr "A"] (Yield [pystr "B"] Stop)))))
  = run (Some (Yield [group_name]
        (Yield [pystr "A"] (Yield [pystr "B"] (Yield [pystr "B"] Stop))))).
Proof.
  apply row_order_is_irrelevant.
  - reflexivity.
  - simpl. apply perm_swap.
Defined.

(** ** Blank records *)

(** The records of a file without the blank ones. *)
Fixpoint without_blanks (t : records) : records :=
  match t with
  | Yield [] rest => without_blanks rest
  | Yield row rest => Yield row (without_blanks rest)
  | Stop => Stop
  | Fail msg => Fail msg
  end.

Lemma tally_rows_without_blanks names t : forall groups,
  tally_rows names (without_blanks t) groups = tally_rows names t groups.
Proof.
  induction t as [| msg | row rest IH]; intro groups; try reflexivity.
  destruct row as [| x row]; [apply IH |].
  simpl. destruct (count_row _ groups) as [groups' |]; simpl; [apply IH | reflexivity].
Qed.

(** X3: blank records after the header are passed over: the run on a file
    is the run on the file without them, in what it prints and in how it
    ends. *)
Theorem blank_records_are_skipped names rest :
  run (Some (Yield names rest)) = run (Some (Yield names (without_blanks rest))).
Proof.
  rewrite !run_eq. unfold read_groups. rewrite !for_rows_init.
  rewrite tally_rows_without_blanks. reflexivity.
Qed.

(** ** Where the group is read *)

Lemma last_index_split g pre post :
  ~ In g post -> last_index g (pre ++ g :: post) = Some (length pre).
Proof.
  intro Hnotin. rewrite last_index_app. simpl.
  apply last_index_None in Hnotin. rewrite Hnotin.
  rewrite (proj2 (str_eqb_eq g g) eq_refl). f_equal. lia.
Qed.

(** X4: the group of a row is its field under the last column named
    "group": the string at that position, and [None] when the row is too
    short to have one. Earlier columns of the same name, and all other
    columns, do not matter. *)
Theorem group_is_read_at_last_group_column pre post row :
  ~ In group_name post ->
  group_of (pre ++ group_name :: post) row =
  Return (match nth_error row (length pre) with
          | Some x => KStr x
          | None => KNone
          end).
Proof.
  intro Hnotin. rewrite group_of_eq. unfold field.
  rewrite last_index_split by exact Hnotin.
  destruct (nth_error row (length pre)); reflexivity.
Qed.

Lemma group_is_read_at_last_group_column_witness :
  group_of ([group_name; pystr "id"] ++ group_name :: [pystr "note"])
           [pystr "A"; pystr "1"; pystr "B"; pystr "n"]
  = Return (KStr (pystr "B")).
Proof.
  apply (@group_is_read_at_last_group_column
           [group_name; pystr "id"] [pystr "note"]
           [pystr "A"; pystr "1"; pystr "B"; pystr "n"]).
  simpl. intuition discriminate.
Defined.

(** ** [None] among the groups *)

Lemma field_In_names names row v :
  field names row group_name = Some v -> In group_name names.
Proof.
  unfold field. destruct (last_index group_name names) eqn:E; [| discriminate].
  intros _. destruct (in_dec str_eq_dec group_name names) as [Hin | Hnotin];
    [exact Hin |].
  apply last_index_None in Hnotin. congruence.
Qed.

Lemma two_in_length {A} (a b : A) l :
  In a l -> In b l -> a <> b -> (2 <= length l)%nat.
Proof.
  intros Ha Hb Hne. destruct l as [| x [| y l]]; simpl in *; try lia; try tauto.
  destruct Ha as [-> | []], Hb as [-> | []]. congruence.
Qed.

(** X5: when the file is read to its end and one data row is too short to
    reach the group column while another has a string there, the run prints
    the header line and then fails: [sorted] cannot order [None] and a
    string, and no group line is printed. *)
Theorem None_among_groups_stops_the_report names rest short full s :
  failure rest = None ->
  In short (data_rows rest) -> field names short group_name = Some VNone ->
  In full (data_rows rest) -> field names full group_name = Some (VStr s) ->
  run (Some (Yield names rest)) = ([header_line], Some (TypeError NotOrderable)).
Proof.
  intros Hend Hshort Hnone Hfull Hstr.
  pose proof (field_In_names _ _ Hnone) as Hin.
  assert (group_of names short = Return KNone) as Hg1
    by (rewrite group_of_eq, Hnone; reflexivity).
  assert (group_of names full = Return (KStr s)) as Hg2
    by (rewrite group_of_eq, Hstr; reflexivity).
  pose proof (groups_of_In _ _ _ Hshort Hg1) as Hk1.
  pose proof (groups_of_In _ _ _ Hfull Hg2) as Hk2.
  apply keys_tally in Hk1. apply keys_tally in Hk2.
  rewrite run_eq, read_groups_eq, column_present, Hend by exact Hin. simpl.
  rewrite sorted_None_fails; [reflexivity | apply NoDup_keys_tally | exact Hk1 |].
  rewrite <- (length_map fst). fold (keys (tally (groups_of names (data_rows rest)))).
  apply (@two_in_length _ _ _ _ Hk1 Hk2). discriminate.
Qed.

Lemma None_among_groups_stops_the_report_witness :
  run (Some (Yield [pystr "id"; group_name]
        (Yield [pystr "1"; pystr "A"] (Yield [pystr "2"] Stop))))
  = ([header_line], Some (TypeError NotOrderable)).
Proof.
  apply (@None_among_groups_stops_the_report
           [pystr "id"; group_name]
           (Yield [pystr "1"; pystr "A"] (Yield [pystr "2"] Stop))
           [pystr "2"] [pystr "1"; pystr "A"] (pystr "A")).
  - reflexivity.
  - simpl. right. left. reflexivity.
  - vm_compute. reflexivity.
  - simpl. left. reflexivity.
  - vm_compute. reflexivity.
Defined.

Lemma fold_bump_repeat_None n : forall c,
  fold_left bump (repeat KNone n) [(KNone, c)] = [(KNone, c + Z.of_nat n)].
Proof.
  induction n as [| n IH]; intro c.
  - simpl. f_equal. f_equal. lia.
  - cbn [repeat fold_left]. unfold bump at 2. simpl. rewrite IH.
    f_equal. f_equal. lia.
Qed.

Lemma groups_of_all_None names rws :
  Forall (fun row => field names row group_name = Some VNone) rws ->
  groups_of names rws = repeat KNone (length rws).
Proof.
  induction 1 as [| row rws Hrow Hall IH]; simpl; [reflexivity |].
  rewrite group_of_eq, Hrow. simpl. f_equal. exact IH.
Qed.

(** X6: when the file is read to its end and every data row is too short to
    reach the group column, the run ends well and reports the single group
    [None] with the number of data rows. *)
Theorem short_rows_are_reported_as_None names rest :
  failure rest = None ->
  data_rows rest <> [] ->
  Forall (fun row => field names row group_name = Some VNone) (data_rows rest) ->
  run (Some (Yield names rest))
  = ([pystr "Groups found:";
      pystr "- None: " ++ str_of_int (Z.of_nat (length (data_rows rest)))
        ++ pystr " fields"], None).
Proof.
  intros Hend Hne Hall.
  assert (In group_name names) as Hin.
  { destruct (data_rows rest) as [| row rws]; [congruence |].
    inversion Hall as [| ? ? Hrow _]; subst.
    apply (field_In_names _ _ Hrow). }
  rewrite run_eq, read_groups_eq, column_present, Hend by exact Hin. simpl.
  rewrite (@groups_of_all_None _ _ Hall).
  destruct (data_rows rest) as [| row rws]; [congruence |].
  unfold tally. cbn [length repeat fold_left]. unfold bump at 2. simpl dict_get.
  cbn [dict_set]. rewrite fold_bump_repeat_None.
  replace (1 + Z.of_nat (length rws)) with (Z.of_nat (S (length rws))) by lia.
  reflexivity.
Qed.

Lemma short_rows_are_reported_as_None_witness :
  run (Some (Yield [pystr "id"; group_name]
        (Yield [pystr "1"] (Yield [pystr "2"] Stop))))
  = ([pystr "Groups found:"; pystr "- None: 2 fields"], None).
Proof.
  apply (@short_rows_are_reported_as_None
           [pystr "id"; group_name]
           (Yield [pystr "1"] (Yield [pystr "2"] Stop))).
  - reflexivity.
  - simpl. discriminate.
  - repeat constructor.
Defined.

(** ** How a run can end *)






(** ** The sum of the counts of any report *)

(** X8: whenever a run ends well, whatever the shape of the file (blank
    records, rows shorter or longer than the header), the counts of the
    report add up to the number of data rows: the header and the blank
    records are not counted, and every other record is counted once. *)
Theorem counts_add_up_to_the_data_rows names rest out :
  run (Some (Yield names rest)) = (out, None) ->
  exists items,
    report (Some (Yield names rest)) = Return items /\
    out = header_line :: map group_line items /\
    total items = Z.of_nat (length (data_rows rest)).
Proof.
  rewrite run_report. unfold report. rewrite read_groups_eq.
  destruct (column names rest) as [ks |] eqn:Ec; simpl; [| discriminate].
  destruct (sorted (tally ks)) as [items |] eqn:Es; [| discriminate].
  intros [= <-]. exists items. split; [reflexivity |]. split; [reflexivity |].
  apply column_Return in Ec as (_ & _ & Hlen).
  rewrite <- (total_Permutation (sorted_Permutation _ Es)), total_tally.
  congruence.
Qed.

Lemma counts_add_up_to_the_data_rows_witness :
  exists items,
    report (Some (Yield [group_name; pystr "id"]
              (Yield [pystr "B"] (Yield [] (Yield [pystr "A"; pystr "1"; pystr "x"]
              (Yield [pystr "B"; pystr "2"] Stop))))))
      = Return items /\
    [header_line; pystr "- A: 1 fields"; pystr "- B: 2 fields"]
      = header_line :: map group_line items /\
    total items = 3.
Proof.
  apply (@counts_add_up_to_the_data_rows
           [group_name; pystr "id"]
           (Yield [pystr "B"] (Yield [] (Yield [pystr "A"; pystr "1"; pystr "x"]
             (Yield [pystr "B"; pystr "2"] Stop))))).
  vm_compute. reflexivity.
Defined.
